(** * Entwine point tables: MemBlock, BlockPointTable, VectorPointTable

    A shallow embedding of [entwine/types/vector-point-table.hpp] and the
    properties of its three classes: the bump-pointer block arena
    ([MemBlock]), the write adapter over two arenas ([BlockPointTable]) and
    the streaming table with its skip-aware iterator ([VectorPointTable]).

    Conventions of the embedding:
    - [uint64_t], [std::size_t], [pdal::PointId] and [pdal::point_count_t]
      are values of [N]; arithmetic that can leave the 64-bit range is
      wrapped with [wrap64];
    - [std::vector<T>] is [list T]; [size()] is the list length, [resize]
      is stdpp's [resize], [at] is a checked lookup that throws;
    - a [char*] is either [nullptr] or a block number with a byte offset;
    - a method that may throw returns a [result]; a non-const method is a
      function from the object to an outcome and the object afterwards;
    - [/] and [%] are [N.div] and [N.modulo], which agree with the source
      for a non-zero divisor; division by a zero [pointSize] is undefined
      in the source, and statements that depend on a quotient or remainder
      assume [pointSize > 0];
    - allocation never fails: a request has to fit a [size_t], and that
      is stated where it matters. *)

From Stdlib Require Import NArith Strings.Byte Strings.String Sorting.Sorted.
From stdpp Require Import base numbers list sorting.

Local Open Scope N_scope.

(** ** Machine integers, exceptions, vectors *)

Definition wrap64 (n : N) : N := n mod 2 ^ 64.

Inductive exn : Type :=
  | runtime_error (what : string)
  | out_of_range (what : string).

Inductive result (A : Type) : Type :=
  | Ok (a : A)
  | Throw (e : exn).
Arguments Ok {A} a.
Arguments Throw {A} e.

(** [std::vector<T>::size()]. *)
Definition vec_size {A} (v : list A) : N := N.of_nat (length v).

(** [std::vector<T>::resize(n, x)]. *)
Definition vec_resize {A} (n : N) (x : A) (v : list A) : list A :=
  resize (N.to_nat n) x v.

(** [std::vector<T>(n, x)]. *)
Definition vec_fill {A} (n : N) (x : A) : list A := replicate (N.to_nat n) x.

(** [std::vector<T>::operator[]]: unchecked, [None] where the source is
    undefined. *)
Definition vec_index {A} (v : list A) (n : N) : option A := v !! N.to_nat n.

(** [std::vector<T>::at(n)]: throws [std::out_of_range] past the end. *)
Definition vec_at {A} (v : list A) (n : N) : result A :=
  match v !! N.to_nat n with
  | Some x => Ok x
  | None => Throw (out_of_range "vector::_M_range_check")
  end.

(** [v.at(n) = x]. *)
Definition vec_at_put {A} (v : list A) (n : N) (x : A) : result (list A) :=
  match v !! N.to_nat n with
  | Some _ => Ok (<[N.to_nat n := x]> v)
  | None => Throw (out_of_range "vector::_M_range_check")
  end.

(** ** Addresses *)

Record addr : Type := Addr { blk : nat; off : N }.
Definition ptr : Type := option addr.

Global Instance addr_eq_dec : EqDecision addr.
Proof. solve_decision. Defined.

Definition nullptr : ptr := None.

(** [p + n] on a [char*]. *)
Definition ptr_add (p : ptr) (n : N) : ptr :=
  match p with
  | Some a => Some (Addr (blk a) (off a + n))
  | None => None
  end.

(** ** MemBlock *)

Module MemBlock.

Definition Block : Type := list byte.

Record t : Type := Build {
  m_pointSize : N;
  m_pointsPerBlock : N;
  m_bytesPerBlock : N;
  m_blocks : list Block;
  m_pos : ptr;
  m_end : ptr;
  m_refs : list ptr
}.

Definition make (pointSize pointsPerBlock : N) : t :=
  {| m_pointSize := pointSize;
     m_pointsPerBlock := pointsPerBlock;
     m_bytesPerBlock := wrap64 (pointsPerBlock * pointSize);
     m_blocks := [];
     m_pos := nullptr;
     m_end := nullptr;
     m_refs := [] |}.

(** The body of [if (m_pos == m_end)]: a fresh zeroed block is appended
    and the cursor is set to its first byte. *)
Definition new_block (mb : t) : t :=
  let pos := Some (Addr (length (m_blocks mb)) 0) in
  {| m_pointSize := m_pointSize mb;
     m_pointsPerBlock := m_pointsPerBlock mb;
     m_bytesPerBlock := m_bytesPerBlock mb;
     m_blocks := m_blocks mb ++ [vec_fill (m_bytesPerBlock mb) x00];
     m_pos := pos;
     m_end := ptr_add pos (m_bytesPerBlock mb);
     m_refs := m_refs mb |}.

Definition next (mb : t) : ptr * t :=
  let mb := if decide (m_pos mb = m_end mb) then new_block mb else mb in
  let result := m_pos mb in
  (result,
   {| m_pointSize := m_pointSize mb;
      m_pointsPerBlock := m_pointsPerBlock mb;
      m_bytesPerBlock := m_bytesPerBlock mb;
      m_blocks := m_blocks mb;
      m_pos := ptr_add (m_pos mb) (m_pointSize mb);
      m_end := m_end mb;
      m_refs := m_refs mb ++ [result] |}).

Definition size (mb : t) : N := vec_size (m_refs mb).
Definition refs (mb : t) : list ptr := m_refs mb.

Definition clear (mb : t) : t :=
  {| m_pointSize := m_pointSize mb;
     m_pointsPerBlock := m_pointsPerBlock mb;
     m_bytesPerBlock := m_bytesPerBlock mb;
     m_blocks := [];
     m_pos := nullptr;
     m_end := nullptr;
     m_refs := [] |}.

(** [n] successive calls of [next()]: the addresses returned, in call
    order, and the arena afterwards. *)
Fixpoint calls (n : nat) (mb : t) : list ptr * t :=
  match n with
  | O => ([], mb)
  | S n' =>
      let '(rs, mb') := calls n' mb in
      let '(r, mb'') := next mb' in
      (rs ++ [r], mb'')
  end.

Definition after (n : nat) (mb : t) : t := (calls n mb).2.
Definition num_blocks (mb : t) : nat := length (m_blocks mb).

End MemBlock.

(** ** BlockPointTable (for writing) *)

Module BlockPointTable.

Record t : Type := Build {
  m_refs : list ptr;
  m_index : N
}.

(** The constructor appends [a.refs()] and then [b.refs()] to the empty
    [m_refs]. *)
Definition make (a b : MemBlock.t) : t :=
  {| m_refs := ([] ++ MemBlock.refs a) ++ MemBlock.refs b;
     m_index := 0 |}.

(** [m_refs[index]], unchecked. *)
Definition getPoint (index : N) (tbl : t) : option ptr :=
  vec_index (m_refs tbl) index.

(** [return m_index++;] *)
Definition addPoint (tbl : t) : N * t :=
  (m_index tbl,
   {| m_refs := m_refs tbl; m_index := wrap64 (m_index tbl + 1) |}).

Definition supportsView (tbl : t) : bool := true.
Definition size (tbl : t) : N := vec_size (m_refs tbl).

End BlockPointTable.

(** ** VectorPointTable (for reading) *)

Module VectorPointTable.

(** The [Process] callback [m_f] is not part of the state modelled here:
    no operation below reads it. *)
Record t : Type := Build {
  m_pointSize : N;
  m_data : list byte;
  m_size : N;
  m_skips : list bool
}.

(** [pdal::PointRef(table, index)]: a handle bound to one index of the
    table it was made on. *)
Record PointRef : Type := MkPointRef { m_idx : N }.

(** Non-const methods: the outcome and the table afterwards. *)
Definition method (A : Type) : Type := t → result A * t.

Global Instance method_ret : MRet method := λ A a tbl, (Ok a, tbl).
Global Instance method_bind : MBind method := λ A B f m tbl,
  match m tbl with
  | (Ok a, tbl') => f a tbl'
  | (Throw e, tbl') => (Throw e, tbl')
  end.

Definition throw {A} (e : exn) : method A := λ tbl, (Throw e, tbl).
Definition this : method t := λ tbl, (Ok tbl, tbl).
Definition set_data (d : list byte) : method unit := λ tbl,
  (Ok (), {| m_pointSize := m_pointSize tbl; m_data := d;
             m_size := m_size tbl; m_skips := m_skips tbl |}).
Definition set_size (s : N) : method unit := λ tbl,
  (Ok (), {| m_pointSize := m_pointSize tbl; m_data := m_data tbl;
             m_size := s; m_skips := m_skips tbl |}).
Definition set_skips (k : list bool) : method unit := λ tbl,
  (Ok (), {| m_pointSize := m_pointSize tbl; m_data := m_data tbl;
             m_size := m_size tbl; m_skips := k |}).

(** [VectorPointTable(const Schema&, std::size_t np)]; [pointSize] is
    [schema.pointSize()]. *)
Definition make (pointSize np : N) : t :=
  {| m_pointSize := pointSize;
     m_data := vec_fill (wrap64 (np * pointSize)) x00;
     m_size := np;
     m_skips := vec_fill np false |}.

(** [VectorPointTable(const Schema&, std::vector<char>&& data)]: the
    members are initialised first, then the length is checked. *)
Definition adopt (pointSize : N) (data : list byte) : result t :=
  let m_size := vec_size data / pointSize in
  let tbl := {| m_pointSize := pointSize;
                m_data := data;
                m_size := m_size;
                m_skips := vec_fill m_size false |} in
  if negb (vec_size (m_data tbl) mod m_pointSize tbl =? 0)
  then Throw (runtime_error "Invalid VectorPointTable data")
  else Ok tbl.

Definition size (tbl : t) : N := m_size tbl.

Definition resize (np : N) : method unit :=
  tbl ← this;
  set_data (vec_resize (wrap64 (np * m_pointSize tbl)) x00 (m_data tbl));;
  set_size np;;
  tbl ← this;
  set_skips (vec_resize (m_size tbl) false (m_skips tbl)).

Definition assign (data : list byte) : method unit :=
  set_data data;;
  tbl ← this;
  set_size (vec_size (m_data tbl) / m_pointSize tbl);;
  tbl ← this;
  set_skips (vec_resize (m_size tbl) false (m_skips tbl)).

Definition capacity (tbl : t) : N := vec_size (m_data tbl) / m_pointSize tbl.

Definition at_ (index : N) : method PointRef :=
  tbl ← this;
  if size tbl <=? index
  then throw (out_of_range "Invalid index to VectorPointTable::at")
  else mret (MkPointRef index).

(** [m_data.data() + index * m_pointSize], as a byte offset into
    [m_data]. *)
Definition getPoint (index : N) (tbl : t) : N :=
  wrap64 (index * m_pointSize tbl).

(** The bytes of the record a handle on [index] reads: [m_pointSize]
    bytes from [getPoint index]. *)
Definition point_bytes (index : N) (tbl : t) : list byte :=
  take (N.to_nat (m_pointSize tbl))
       (drop (N.to_nat (getPoint index tbl)) (m_data tbl)).

Definition data (tbl : t) : list byte := m_data tbl.

(** [acquire()] hands out [std::move(m_data)]: the caller takes the
    buffer and the table keeps an empty one. *)
Definition acquire : method (list byte) :=
  tbl ← this;
  set_data [];;
  mret (m_data tbl).

Definition pointSize (tbl : t) : N := m_pointSize tbl.

Definition skip (n : N) (tbl : t) : result bool := vec_at (m_skips tbl) n.

Definition setNumPoints (s : N) : method unit := set_size s.

Definition setSkip (n : N) : method unit :=
  tbl ← this;
  match vec_at_put (m_skips tbl) n true with
  | Ok k => set_skips k
  | Throw e => throw e
  end.

Module Iterator.

Record t : Type := Build {
  m_index : N;
  m_pointRef : PointRef
}.

(** [while (m_index < m_table.size() && m_table.skip(m_index)) ++m_index;]
    returning the outcome and the index reached.  The index only moves
    towards [size], so the loop body runs at most [size - index] times:
    with that much fuel the fuel is spent exactly when the guard fails. *)
Fixpoint skip_loop (fuel : nat) (table : VectorPointTable.t) (index : N)
  : result unit * N :=
  match fuel with
  | O => (Ok (), index)
  | S fuel' =>
      if index <? size table then
        match skip index table with
        | Throw e => (Throw e, index)
        | Ok true => skip_loop fuel' table (wrap64 (index + 1))
        | Ok false => (Ok (), index)
        end
      else (Ok (), index)
  end.

Definition skip_while (table : VectorPointTable.t) (index : N)
  : result unit * N :=
  skip_loop (N.to_nat (size table - index)) table index.

(** [Iterator(table, index)]. *)
Definition make (table : VectorPointTable.t) (index : N) : result t :=
  match skip_while table index with
  | (Ok _, i) => Ok {| m_index := i; m_pointRef := MkPointRef i |}
  | (Throw e, _) => Throw e
  end.

(** [operator++()]: the do-while runs its body once and then repeats it
    under the guard of [skip_while]; the handle follows the index at
    every step.  Returns the outcome and the iterator afterwards. *)
Definition pre_increment (table : VectorPointTable.t) (it : t)
  : result unit * t :=
  let '(r, i) := skip_while table (wrap64 (m_index it + 1)) in
  (r, {| m_index := i; m_pointRef := MkPointRef i |}).

(** [operator++(int)]: the value returned and the iterator afterwards. *)
Definition post_increment (table : VectorPointTable.t) (it : t)
  : result t * t :=
  let other := it in
  let '(r, other) := pre_increment table other in
  (match r with Ok _ => Ok other | Throw e => Throw e end, it).

Definition deref (it : t) : PointRef := m_pointRef it.
Definition pointRef (it : t) : PointRef := m_pointRef it.

(** [operator!=]. *)
Definition neq (lhs rhs : t) : bool := negb (m_index lhs =? m_index rhs).

Definition data (table : VectorPointTable.t) (it : t) : N :=
  getPoint (m_index it) table.

End Iterator.

Definition begin (tbl : t) : result Iterator.t := Iterator.make tbl 0.
Definition end_ (tbl : t) : result Iterator.t := Iterator.make tbl (size tbl).

(** [for (it = first; it != last; ++it)] yielding the index of the handle
    [*it] at every step: the indices a traversal visits.  Every step moves the index up and stops
    at [size] at the latest, so [size - index] steps of fuel are spent
    exactly when the iterators meet. *)
Fixpoint for_loop (fuel : nat) (tbl : t) (it last : Iterator.t)
  : result (list N) :=
  match fuel with
  | O => Ok []
  | S fuel' =>
      if Iterator.neq it last then
        match Iterator.pre_increment tbl it with
        | (Ok _, it') =>
            match for_loop fuel' tbl it' last with
            | Ok l => Ok (m_idx (Iterator.deref it) :: l)
            | Throw e => Throw e
            end
        | (Throw e, _) => Throw e
        end
      else Ok []
  end.

(** [for (auto it = begin(); it != end(); ++it)]. *)
Definition iterate (tbl : t) : result (list N) :=
  match begin tbl, end_ tbl with
  | Ok first, Ok last =>
      for_loop (N.to_nat (size tbl - Iterator.m_index first)) tbl first last
  | Throw e, _ => Throw e
  | _, Throw e => Throw e
  end.

(** Operations a client can apply to a table, and the table after each. *)
Inductive op : Type :=
  | Resize (np : N)
  | Assign (data : list byte)
  | SetNumPoints (s : N)
  | SetSkip (n : N)
  | Acquire.

Definition run_op (o : op) (tbl : t) : t :=
  match o with
  | Resize np => (resize np tbl).2
  | Assign d => (assign d tbl).2
  | SetNumPoints s => (setNumPoints s tbl).2
  | SetSkip n => (setSkip n tbl).2
  | Acquire => (acquire tbl).2
  end.

Definition run (ops : list op) (tbl : t) : t :=
  foldl (λ acc o, run_op o acc) tbl ops.

End VectorPointTable.

(** ** Invariants used by the proofs *)

(** An issued address lies strictly before the cursor [(b, o)]. *)
Definition before_cursor (b : nat) (o : N) (p : ptr) : Prop :=
  ∃ a, p = Some a ∧ ((blk a < b)%nat ∨ (blk a = b ∧ off a < o)).

(** The arena after [n] calls of [next()]: either untouched, or with the
    cursor [c] records into block [b], where [n = b * pointsPerBlock + c]. *)
Definition cursor_inv (pointSize pointsPerBlock : N) (n : nat)
    (mb : MemBlock.t) : Prop :=
  MemBlock.m_pointSize mb = pointSize ∧
  MemBlock.m_bytesPerBlock mb = pointsPerBlock * pointSize ∧
  length (MemBlock.m_refs mb) = n ∧
  NoDup (MemBlock.m_refs mb) ∧
  ((n = 0%nat ∧ MemBlock.m_pos mb = nullptr ∧ MemBlock.m_end mb = nullptr ∧
    MemBlock.m_blocks mb = []) ∨
   (∃ (b : nat) (c : N),
      1 ≤ c ≤ pointsPerBlock ∧
      N.of_nat n = N.of_nat b * pointsPerBlock + c ∧
      length (MemBlock.m_blocks mb) = S b ∧
      MemBlock.m_pos mb = Some (Addr b (c * pointSize)) ∧
      MemBlock.m_end mb = Some (Addr b (pointsPerBlock * pointSize)) ∧
      Forall (before_cursor b (c * pointSize)) (MemBlock.m_refs mb))).

(** The two exceptions the table throws itself. *)
Definition invalid_data : exn := runtime_error "Invalid VectorPointTable data".
Definition invalid_index : exn :=
  out_of_range "Invalid index to VectorPointTable::at".

(** The skip mask is as long as the logical size. *)
Definition mask_matches (tbl : VectorPointTable.t) : Prop :=
  vec_size (VectorPointTable.m_skips tbl) = VectorPointTable.m_size tbl.

(** The buffer holds a whole number of records. *)
Definition buffer_aligned (tbl : VectorPointTable.t) : Prop :=
  vec_size (VectorPointTable.m_data tbl) mod VectorPointTable.m_pointSize tbl
  = 0.

(** A table of [n] points: logical size, buffer and mask all agree on [n],
    and the buffer length is a [size_t]. *)
Definition holds_points (n : N) (tbl : VectorPointTable.t) : Prop :=
  VectorPointTable.m_size tbl = n ∧
  vec_size (VectorPointTable.m_data tbl) = n * VectorPointTable.m_pointSize tbl ∧
  vec_size (VectorPointTable.m_skips tbl) = n ∧
  n * VectorPointTable.m_pointSize tbl < 2 ^ 64.

(** Tables as the two constructors deliver them. *)
Inductive constructed (pointSize : N) : VectorPointTable.t → Prop :=
  | constructed_make (np : N) :
      np * pointSize < 2 ^ 64 →
      constructed pointSize (VectorPointTable.make pointSize np)
  | constructed_adopt (data : list byte) (tbl : VectorPointTable.t) :
      VectorPointTable.adopt pointSize data = Ok tbl →
      constructed pointSize tbl.

(** Requests whose byte count is a [size_t] and buffers that hold whole
    records. *)
Definition op_fits (pointSize : N) (o : VectorPointTable.op) : Prop :=
  match o with
  | VectorPointTable.Resize np => np * pointSize < 2 ^ 64
  | VectorPointTable.Assign d => vec_size d mod pointSize = 0
  | _ => True
  end.

Definition is_SetNumPoints (o : VectorPointTable.op) : bool :=
  match o with VectorPointTable.SetNumPoints _ => true | _ => false end.

(** [resize] and [assign] set the logical size and the mask together. *)
Definition sets_mask (o : VectorPointTable.op) : bool :=
  match o with
  | VectorPointTable.Resize _ | VectorPointTable.Assign _ => true
  | _ => false
  end.

(** The example scenario: 4 points of 8 bytes, [setSkip(1)], [resize(2)]. *)
Definition scenario_start : VectorPointTable.t := VectorPointTable.make 8 4.
Definition scenario_skipped : VectorPointTable.t :=
  (VectorPointTable.setSkip 1 scenario_start).2.
Definition scenario_resized : VectorPointTable.t :=
  (VectorPointTable.resize 2 scenario_skipped).2.

(** A table whose logical size was moved by the hook: four 8-byte records
    are adopted, the last two of non-zero bytes, index 3 is skipped and
    [setNumPoints(2)] lowers the logical size to 2. *)
Definition hooked_buffer : list byte := replicate 16 x00 ++ replicate 16 x01.
Definition hooked_table : VectorPointTable.t :=
  match VectorPointTable.adopt 8 hooked_buffer with
  | Ok tbl =>
      VectorPointTable.run
        [VectorPointTable.SetSkip 3; VectorPointTable.SetNumPoints 2] tbl
  | Throw _ => VectorPointTable.make 8 0
  end.

(** An iterator whose handle is bound to its own index, as every
    iterator made by the constructor or moved by [operator++] is. *)
Definition handle_follows (it : VectorPointTable.Iterator.t) : Prop :=
  VectorPointTable.Iterator.m_pointRef it
  = VectorPointTable.MkPointRef (VectorPointTable.Iterator.m_index it).

(** ** Notions used by the further properties *)

(** The address of the slot issued by the call numbered [j + 1] on an
    arena of [pointsPerBlock] records of [pointSize] bytes per block. *)
Definition slot_address (pointSize pointsPerBlock : N) (j : nat) : ptr :=
  Some (Addr (N.to_nat (N.of_nat j / pointsPerBlock))
             ((N.of_nat j mod pointsPerBlock) * pointSize)).

(** [n] successive calls of [addPoint()]: the indices returned, in call
    order, and the table afterwards. *)
Fixpoint addPoint_calls (n : nat) (tbl : BlockPointTable.t)
  : list N * BlockPointTable.t :=
  match n with
  | O => ([], tbl)
  | S n' =>
      let '(rs, tbl') := addPoint_calls n' tbl in
      let '(r, tbl'') := BlockPointTable.addPoint tbl' in
      (rs ++ [r], tbl'')
  end.

(** The indices [0, 1, ..., n - 1]. *)
Definition index_range (n : N) : list N := N.of_nat <$> seq 0 (N.to_nat n).

(** [skip(x)] returns [false]. *)
Definition unskipped (tbl : VectorPointTable.t) (x : N) : bool :=
  match VectorPointTable.skip x tbl with
  | Ok false => true
  | _ => false
  end.

(** The exception of a checked vector access. *)
Definition range_check : exn := out_of_range "vector::_M_range_check".

(** * Properties *)

(** ** Vectors *)

Lemma vec_size_resize {A} (n : N) (x : A) (v : list A) :
  vec_size (vec_resize n x v) = n.
Proof. unfold vec_size, vec_resize. rewrite length_resize. lia. Qed.

Lemma vec_size_fill {A} (n : N) (x : A) : vec_size (vec_fill n x) = n.
Proof. unfold vec_size, vec_fill. rewrite length_replicate. lia. Qed.

Lemma vec_at_Ok {A} (v : list A) (n : N) (x : A) :
  vec_at v n = Ok x ↔ v !! N.to_nat n = Some x.
Proof. unfold vec_at. destruct (v !! N.to_nat n); naive_solver. Qed.

Lemma vec_at_in_range {A} (v : list A) (n : N) :
  n < vec_size v → ∃ x, vec_at v n = Ok x.
Proof.
  unfold vec_size, vec_at. intros Hn.
  destruct (lookup_lt_is_Some_2 v (N.to_nat n)) as [x ->]; [lia | eauto].
Qed.

Lemma wrap64_small (n : N) : n < 2 ^ 64 → wrap64 n = n.
Proof. apply N.mod_small. Qed.

(** ** MemBlock: the bump cursor *)

Section arena.
Variables pointSize pointsPerBlock : N.
Hypothesis pointSize_pos : 1 ≤ pointSize.
Hypothesis pointsPerBlock_pos : 1 ≤ pointsPerBlock.
Hypothesis block_fits : pointsPerBlock * pointSize < 2 ^ 64.

Local Abbreviation cursor_inv := (cursor_inv pointSize pointsPerBlock).

Local Ltac side :=
  try done; try (rewrite ?length_app; simpl; lia);
  try (repeat f_equal; lia).

Lemma before_cursor_fresh b o p : before_cursor b o p → p ≠ Some (Addr b o).
Proof. intros (a & -> & H) [= ->]. simpl in H. lia. Qed.

Lemma before_cursor_advance b o o' p :
  o ≤ o' → before_cursor b o p → before_cursor b o' p.
Proof. intros Ho (a & -> & H). exists a. split; [done | lia]. Qed.

Lemma before_cursor_next_block b o o' p :
  before_cursor b o p → before_cursor (S b) o' p.
Proof. intros (a & -> & H). exists a. split; [done | lia]. Qed.

Lemma make_inv : cursor_inv 0 (MemBlock.make pointSize pointsPerBlock).
Proof.
  unfold cursor_inv, MemBlock.make; simpl.
  rewrite wrap64_small by done.
  repeat split; [constructor | by left].
Qed.

Lemma not_fresh_in (p : ptr) (l : list ptr) b o :
  Forall (before_cursor b o) l → p = Some (Addr b o) → p ∉ l.
Proof.
  intros Hall -> Hin. rewrite Forall_forall in Hall.
  by apply (before_cursor_fresh b o _ (Hall _ Hin)).
Qed.

(** One call of [next()] from a state satisfying the invariant. *)
Lemma next_inv (n : nat) (mb : MemBlock.t) :
  cursor_inv n mb →
  cursor_inv (S n) ((MemBlock.next mb).2) ∧
  ((MemBlock.next mb).1 ∉ MemBlock.m_refs mb) ∧
  MemBlock.m_refs ((MemBlock.next mb).2)
    = MemBlock.m_refs mb ++ [(MemBlock.next mb).1] ∧
  MemBlock.num_blocks ((MemBlock.next mb).2)
    = (MemBlock.num_blocks mb
       + (if (N.of_nat n mod pointsPerBlock =? 0)%N then 1 else 0))%nat.
Proof.
  intros (Hps & Hbytes & Hlen & Hnd & Hcur).
  destruct Hcur as [(-> & Hpos & Hend & Hblocks)
                   | (b & c & Hc & Hn & Hblocks & Hpos & Hend & Hbelow)].
  - (* first call: no block yet *)
    destruct (MemBlock.m_refs mb) as [|? ?] eqn:Hrefs; [|done].
    unfold MemBlock.next, MemBlock.num_blocks.
    rewrite Hpos, Hend. rewrite decide_True by done.
    unfold MemBlock.new_block; simpl. rewrite Hblocks, Hrefs, Hps, Hbytes.
    simpl.
    split_and!; try done; [| apply not_elem_of_nil].
    unfold cursor_inv; simpl. split_and!; try done.
    { apply NoDup_singleton. }
    right. exists 0%nat, 1. rewrite !N.mul_1_l.
    split_and!; side.
    apply Forall_singleton. eexists. split; [done|]. right. simpl. lia.
  - destruct (decide (c = pointsPerBlock)) as [-> | Hne].
    + (* the block is exactly full: a new one is started *)
      unfold MemBlock.next, MemBlock.num_blocks.
      rewrite Hpos, Hend. rewrite decide_True by done.
      unfold MemBlock.new_block; simpl. rewrite Hblocks, Hps, Hbytes.
      rewrite length_app. simpl.
      assert (N.of_nat n mod pointsPerBlock = 0) as ->.
      { rewrite Hn.
        replace (N.of_nat b * pointsPerBlock + pointsPerBlock)
          with ((N.of_nat b + 1) * pointsPerBlock) by lia.
        apply N.Div0.mod_mul. }
      simpl. split_and!; side.
      * unfold cursor_inv; simpl. split_and!; try done.
        { rewrite length_app; simpl; lia. }
        { apply NoDup_app. split_and!; [done | | apply NoDup_singleton].
          intros p Hp ->%list_elem_of_singleton.
          rewrite Forall_forall in Hbelow.
          destruct (Hbelow _ Hp) as (a & [= <-] & H). simpl in H. lia. }
        right. exists (S b), 1. rewrite !N.mul_1_l, N.add_0_l.
        split_and!; side.
        apply Forall_app. split.
        { eapply Forall_impl; [exact Hbelow|].
          intros p. apply before_cursor_next_block. }
        apply Forall_singleton. eexists. split; [done|]. right. simpl. lia.
      * intros Hin. rewrite Forall_forall in Hbelow.
        destruct (Hbelow _ Hin) as (a & [= <-] & H). simpl in H. lia.
    + (* room left in the current block *)
      assert (c * pointSize ≠ pointsPerBlock * pointSize) as Hoff by nia.
      unfold MemBlock.next, MemBlock.num_blocks.
      rewrite Hpos, Hend. rewrite decide_False by congruence.
      simpl. rewrite Hpos, Hend, Hps.
      assert (N.of_nat n mod pointsPerBlock = c) as ->.
      { rewrite Hn, N.add_comm, N.Div0.mod_add. apply N.mod_small. lia. }
      assert ((c =? 0) = false) as -> by (apply N.eqb_neq; lia).
      split_and!; side.
      * unfold cursor_inv; simpl. split_and!; try done.
        { rewrite length_app; simpl; lia. }
        { apply NoDup_app. split_and!; [done | | apply NoDup_singleton].
          intros p Hp ->%list_elem_of_singleton.
          exact (not_fresh_in _ _ _ _ Hbelow eq_refl Hp). }
        right. exists b, (c + 1).
        replace ((c + 1) * pointSize) with (c * pointSize + pointSize)
          by lia.
        split_and!; side.
        apply Forall_app. split.
        { eapply Forall_impl; [exact Hbelow|].
          intros p. apply before_cursor_advance. lia. }
        apply Forall_singleton. eexists. split; [done|]. right. simpl. lia.
      * exact (not_fresh_in _ _ _ _ Hbelow eq_refl).
Qed.

Lemma calls_S (n : nat) (mb : MemBlock.t) :
  MemBlock.calls (S n) mb
  = ((MemBlock.calls n mb).1 ++ [(MemBlock.next (MemBlock.after n mb)).1],
     (MemBlock.next (MemBlock.after n mb)).2).
Proof.
  unfold MemBlock.after. simpl.
  destruct (MemBlock.calls n mb) as [rs mb']; simpl.
  by destruct (MemBlock.next mb').
Qed.

Lemma after_S (n : nat) (mb : MemBlock.t) :
  MemBlock.after (S n) mb = (MemBlock.next (MemBlock.after n mb)).2.
Proof. unfold MemBlock.after at 1. by rewrite calls_S. Qed.

Lemma calls_inv (n : nat) :
  let mb := MemBlock.make pointSize pointsPerBlock in
  cursor_inv n (MemBlock.after n mb) ∧
  MemBlock.m_refs (MemBlock.after n mb) = (MemBlock.calls n mb).1.
Proof.
  intros mb. induction n as [|n [IH1 IH2]].
  - split; [apply make_inv | done].
  - destruct (next_inv n _ IH1) as (Hinv & _ & Hrefs & _).
    rewrite after_S, calls_S. simpl.
    split; [done|]. simpl in Hrefs. rewrite <- IH2. apply Hrefs.
Qed.
End arena.

(** C4. On a Block Arena with [pointSize ≥ 1] and block capacity
    [pointsPerBlock ≥ 1] (whose block byte size is the 64-bit product of
    the two), after any [n] calls of [next()]: [size()] is [n], [refs()]
    lists the addresses returned, these are pairwise distinct, and the
    call numbered [j + 1] allocates a block exactly when [j] is a multiple
    of [pointsPerBlock], that is on the calls 1, k+1, 2k+1, ... *)
Theorem MemBlock_next_sequence (pointSize pointsPerBlock : N) (n : nat) :
  1 ≤ pointSize →
  1 ≤ pointsPerBlock →
  pointsPerBlock * pointSize < 2 ^ 64 →
  let mb := MemBlock.make pointSize pointsPerBlock in
  MemBlock.size (MemBlock.after n mb) = N.of_nat n ∧
  MemBlock.refs (MemBlock.after n mb) = (MemBlock.calls n mb).1 ∧
  NoDup (MemBlock.calls n mb).1 ∧
  ∀ j : nat,
    MemBlock.num_blocks (MemBlock.after (S j) mb)
    = (MemBlock.num_blocks (MemBlock.after j mb)
       + (if (N.of_nat j mod pointsPerBlock =? 0)%N then 1 else 0))%nat.
Proof.
  intros Hps Hk Hfit mb.
  destruct (calls_inv pointSize pointsPerBlock Hps Hk Hfit n)
    as [(_ & _ & Hlen & Hnd & _) Hrefs].
  fold mb in Hlen, Hnd, Hrefs.
  split_and!.
  - unfold MemBlock.size, vec_size. by rewrite Hlen.
  - exact Hrefs.
  - by rewrite <- Hrefs.
  - intros j.
    destruct (calls_inv pointSize pointsPerBlock Hps Hk Hfit j) as [Hinv _].
    destruct (next_inv pointSize pointsPerBlock Hps Hk Hfit j _ Hinv)
      as (_ & _ & _ & Hblocks).
    unfold mb. rewrite after_S. exact Hblocks.
Qed.

Lemma MemBlock_next_sequence_witness :
  let mb := MemBlock.make 4 2 in
  MemBlock.size (MemBlock.after 5 mb) = 5 ∧
  MemBlock.refs (MemBlock.after 5 mb) = (MemBlock.calls 5 mb).1 ∧
  NoDup (MemBlock.calls 5 mb).1 ∧
  ∀ j : nat,
    MemBlock.num_blocks (MemBlock.after (S j) mb)
    = (MemBlock.num_blocks (MemBlock.after j mb)
       + (if (N.of_nat j mod 2 =? 0)%N then 1 else 0))%nat.
Proof. apply (MemBlock_next_sequence 4 2 5); reflexivity || by vm_compute. Defined.

(** ** BlockPointTable: two arenas behind one index space *)

Lemma BlockPointTable_refs (a b : MemBlock.t) :
  BlockPointTable.m_refs (BlockPointTable.make a b)
  = MemBlock.refs a ++ MemBlock.refs b.
Proof. done. Qed.

(** C5. A Write Adapter Table made from arenas [a] and [b] has
    [size() = a.size() + b.size()]; [getPoint(i)] is [a.refs()[i]] for
    [i < a.size()] and [b.refs()[i - a.size()]] for
    [a.size() ≤ i < a.size() + b.size()]. *)
Theorem BlockPointTable_concat (a b : MemBlock.t) :
  let w := BlockPointTable.make a b in
  BlockPointTable.size w = MemBlock.size a + MemBlock.size b ∧
  (∀ i, i < MemBlock.size a →
        ∃ p, BlockPointTable.getPoint i w = Some p ∧
             vec_index (MemBlock.refs a) i = Some p) ∧
  (∀ i, MemBlock.size a ≤ i < MemBlock.size a + MemBlock.size b →
        ∃ p, BlockPointTable.getPoint i w = Some p ∧
             vec_index (MemBlock.refs b) (i - MemBlock.size a) = Some p).
Proof.
  intros w. unfold w, BlockPointTable.size, BlockPointTable.getPoint.
  rewrite BlockPointTable_refs.
  unfold MemBlock.size, MemBlock.refs, vec_index, vec_size.
  split_and!.
  - rewrite length_app. lia.
  - intros i Hi.
    destruct (lookup_lt_is_Some_2 (MemBlock.m_refs a) (N.to_nat i))
      as [p Hp]; [lia|].
    exists p. split; [|done]. rewrite lookup_app_l; [done | lia].
  - intros i Hi.
    destruct (lookup_lt_is_Some_2 (MemBlock.m_refs b)
                (N.to_nat (i - N.of_nat (length (MemBlock.m_refs a)))))
      as [p Hp]; [lia|].
    exists p. split; [|done].
    rewrite lookup_app_r by lia. rewrite <- Hp. f_equal. lia.
Qed.

Lemma BlockPointTable_concat_witness :
  let a := MemBlock.after 3 (MemBlock.make 4 2) in
  let b := MemBlock.after 2 (MemBlock.make 4 2) in
  let w := BlockPointTable.make a b in
  (∃ p, BlockPointTable.getPoint 1 w = Some p ∧
        vec_index (MemBlock.refs a) 1 = Some p) ∧
  (∃ p, BlockPointTable.getPoint 4 w = Some p ∧
        vec_index (MemBlock.refs b) (4 - MemBlock.size a) = Some p).
Proof.
  intros a b w.
  destruct (BlockPointTable_concat a b) as (_ & Hfst & Hsnd).
  split; [apply Hfst | apply Hsnd]; by vm_compute.
Defined.

(** ** VectorPointTable: construction and assignment *)

Import VectorPointTable.

Lemma adopt_Ok (pointSize : N) (data : list byte) :
  vec_size data mod pointSize = 0 →
  adopt pointSize data
  = Ok {| m_pointSize := pointSize; m_data := data;
          m_size := vec_size data / pointSize;
          m_skips := vec_fill (vec_size data / pointSize) false |}.
Proof. unfold adopt; simpl. by intros ->. Qed.

Lemma adopt_Throw (pointSize : N) (data : list byte) :
  vec_size data mod pointSize ≠ 0 → adopt pointSize data = Throw invalid_data.
Proof.
  unfold adopt; simpl. intros H.
  by destruct (N.eqb_spec (vec_size data mod pointSize) 0).
Qed.

Lemma assign_eq (data : list byte) (tbl : t) :
  assign data tbl
  = (Ok (),
     {| m_pointSize := m_pointSize tbl; m_data := data;
        m_size := vec_size data / m_pointSize tbl;
        m_skips := vec_resize (vec_size data / m_pointSize tbl) false
                     (m_skips tbl) |}).
Proof. done. Qed.

Lemma resize_eq (np : N) (tbl : t) :
  resize np tbl
  = (Ok (),
     {| m_pointSize := m_pointSize tbl;
        m_data := vec_resize (wrap64 (np * m_pointSize tbl)) x00 (m_data tbl);
        m_size := np;
        m_skips := vec_resize np false (m_skips tbl) |}).
Proof. done. Qed.

(** C1, at the input the spec names: a 17-byte buffer for 16-byte records.
    The adopting constructor throws; [assign] on a table of the same
    record size throws nothing, takes the buffer and sets the logical
    size to 17 / 16 = 1. *)
Theorem assign_takes_misaligned_buffer :
  let buffer := replicate 17 x00 in
  let tbl := make 16 0 in
  adopt 16 buffer = Throw invalid_data ∧
  (assign buffer tbl).1 = Ok () ∧
  m_data (assign buffer tbl).2 = buffer ∧
  size (assign buffer tbl).2 = 1 ∧
  vec_size (m_data (assign buffer tbl).2) mod 16 = 1.
Proof. by vm_compute. Qed.

(** C9. Adopting a buffer of [n * pointSize] bytes and then calling
    [acquire()] gives back the adopted buffer. *)
Theorem adopt_acquire_roundtrip (pointSize n : N) (data : list byte) :
  0 < pointSize →
  vec_size data = n * pointSize →
  ∃ tbl, adopt pointSize data = Ok tbl ∧
         size tbl = n ∧
         (acquire tbl).1 = Ok data.
Proof.
  intros Hps Hlen. eexists. split; [|split].
  - apply adopt_Ok. rewrite Hlen. apply N.Div0.mod_mul.
  - simpl. rewrite Hlen. apply N.div_mul. lia.
  - done.
Qed.

Lemma adopt_acquire_roundtrip_witness :
  ∃ tbl, adopt 8 (replicate 16 x00) = Ok tbl ∧
         size tbl = 2 ∧
         (acquire tbl).1 = Ok (replicate 16 x00).
Proof. apply (adopt_acquire_roundtrip 8 2); by vm_compute. Defined.

(** ** VectorPointTable: bounded access *)

Lemma at_eq (index : N) (tbl : t) :
  at_ index tbl
  = if size tbl <=? index then (Throw invalid_index, tbl)
    else (Ok (MkPointRef index), tbl).
Proof.
  unfold at_, mbind, method_bind, this; simpl.
  by destruct (size tbl <=? index).
Qed.

Lemma at_in_range (tbl : t) :
  1 ≤ size tbl → (at_ (size tbl - 1) tbl).1 = Ok (MkPointRef (size tbl - 1)).
Proof.
  intros Hsize. rewrite at_eq.
  destruct (N.leb_spec (size tbl) (size tbl - 1)); [lia | done].
Qed.

(** C8. [at(index)] throws out-of-range exactly when [index ≥ size] and
    otherwise returns a handle bound to [index]; so [at(size)] throws and
    [at(size - 1)] succeeds when [size ≥ 1]; the table is the same
    afterwards in every case. *)
Theorem at_bounds (tbl : t) (index : N) :
  (size tbl ≤ index ↔ (at_ index tbl).1 = Throw invalid_index) ∧
  (index < size tbl ↔ (at_ index tbl).1 = Ok (MkPointRef index)) ∧
  (at_ (size tbl) tbl).1 = Throw invalid_index ∧
  (1 ≤ size tbl →
   (at_ (size tbl - 1) tbl).1 = Ok (MkPointRef (size tbl - 1))) ∧
  (at_ index tbl).2 = tbl.
Proof.
  split_and!.
  - rewrite at_eq. destruct (N.leb_spec (size tbl) index); simpl;
      split; (done || lia).
  - rewrite at_eq. destruct (N.leb_spec (size tbl) index); simpl;
      split; (done || lia).
  - rewrite at_eq. by rewrite N.leb_refl.
  - intros Hsize. by apply at_in_range.
  - rewrite at_eq. by destruct (size tbl <=? index).
Qed.

Lemma at_bounds_witness :
  (at_ (size (make 8 4) - 1) (make 8 4)).1
  = Ok (MkPointRef (size (make 8 4) - 1)).
Proof.
  destruct (at_bounds (make 8 4) 0) as (_ & _ & _ & Hlast & _).
  apply Hlast. by vm_compute.
Defined.

(** C3, as the code runs it. In the example scenario the table starts
    with [capacity() = 4], the traversal after [setSkip(1)] visits 0, 2, 3,
    and [resize(2)] leaves [capacity() = 2]; index 1 is then still inside
    the logical size 2, so [at(1)] returns a handle on index 1 (whose skip
    flag is still set), and the first index that [at] refuses is 2. *)
Theorem scenario_after_resize :
  capacity scenario_start = 4 ∧
  (setSkip 1 scenario_start).1 = Ok () ∧
  iterate scenario_skipped = Ok [0; 2; 3] ∧
  capacity scenario_resized = 2 ∧
  size scenario_resized = 2 ∧
  (at_ 1 scenario_resized).1 = Ok (MkPointRef 1) ∧
  skip 1 scenario_resized = Ok true ∧
  (at_ 2 scenario_resized).1 = Throw invalid_index.
Proof. by vm_compute. Qed.

(** In the example scenario [at(1)] after [resize(2)] does not throw. *)
Lemma scenario_at_1_succeeds :
  ¬ ∃ e, (at_ 1 scenario_resized).1 = Throw e.
Proof. intros [e He]. vm_compute in He. discriminate He. Qed.

(** ** VectorPointTable: resize *)

Lemma take_drop_take {A} (l : list A) (a b : nat) :
  take a (drop b (take (b + a) l)) = take a (drop b l).
Proof. by rewrite <- take_drop_commute, take_take, Nat.min_id. Qed.

(** C7, as the code has it. [resize(new)] (with a byte count that is a
    [size_t]) works on the lengths of the buffer and of the skip mask, not
    on the logical size: for every table, a buffer of at most
    [new * pointSize] bytes is kept and zero bytes are appended up to that
    length, and a longer one is cut to its first [new * pointSize] bytes;
    a mask of at most [new] entries is kept and unskipped entries are
    appended up to [new], and a longer one is cut to its first [new]
    entries; the logical size becomes [new].  So on a table whose buffer
    holds [old] records and whose mask has [old] entries, growing to
    [new > old] appends [(new - old) * pointSize] zero bytes and
    [new - old] unskipped entries; and after shrinking, for [new ≥ 1],
    [at(new - 1)] gives a handle on that index which reads the bytes it
    read before. *)
Theorem resize_grow_shrink (tbl : t) (new : N) :
  new * m_pointSize tbl < 2 ^ 64 →
  let tbl' := (resize new tbl).2 in
  (resize new tbl).1 = Ok () ∧
  size tbl' = new ∧
  (vec_size (m_data tbl) ≤ new * m_pointSize tbl →
   m_data tbl'
   = m_data tbl
     ++ vec_fill (new * m_pointSize tbl - vec_size (m_data tbl)) x00) ∧
  (vec_size (m_skips tbl) ≤ new →
   m_skips tbl'
   = m_skips tbl ++ vec_fill (new - vec_size (m_skips tbl)) false) ∧
  (new * m_pointSize tbl ≤ vec_size (m_data tbl) →
   m_data tbl' = take (N.to_nat (new * m_pointSize tbl)) (m_data tbl) ∧
   (1 ≤ new →
    (at_ (new - 1) tbl').1 = Ok (MkPointRef (new - 1)) ∧
    point_bytes (new - 1) tbl' = point_bytes (new - 1) tbl)) ∧
  (new ≤ vec_size (m_skips tbl) →
   m_skips tbl' = take (N.to_nat new) (m_skips tbl)) ∧
  (∀ old,
     vec_size (m_data tbl) = old * m_pointSize tbl →
     vec_size (m_skips tbl) = old →
     old < new →
     m_data tbl'
     = m_data tbl ++ vec_fill ((new - old) * m_pointSize tbl) x00 ∧
     m_skips tbl' = m_skips tbl ++ vec_fill (new - old) false).
Proof.
  intros Hfit tbl'.
  unfold tbl'. rewrite resize_eq. simpl.
  set (ps := m_pointSize tbl) in *.
  rewrite wrap64_small by done.
  unfold vec_resize, vec_fill, vec_size.
  split_and!; try done.
  - intros Hle. rewrite resize_ge by lia. do 2 f_equal. lia.
  - intros Hle. rewrite resize_ge by lia. do 2 f_equal. lia.
  - intros Hle. rewrite resize_le by lia. split; [done|].
    intros Hpos. split.
    + by apply (at_in_range (Build ps _ new _)).
    + unfold point_bytes, getPoint; simpl. fold ps.
      assert (new * ps = (new - 1) * ps + ps) as Hsplit by nia.
      rewrite wrap64_small by lia.
      rewrite Hsplit, N2Nat.inj_add. apply take_drop_take.
  - intros Hle. by rewrite resize_le by lia.
  - intros old Hdata Hskips Hlt. split.
    + rewrite resize_ge by nia. do 2 f_equal. nia.
    + rewrite resize_ge by lia. do 2 f_equal. lia.
Qed.

Lemma resize_grow_shrink_witness :
  (m_data (resize 6 (make 8 4)).2
   = m_data (make 8 4) ++ vec_fill ((6 - 4) * m_pointSize (make 8 4)) x00 ∧
   m_skips (resize 6 (make 8 4)).2
   = m_skips (make 8 4) ++ vec_fill (6 - 4) false) ∧
  (m_data (resize 4 hooked_table).2 = m_data hooked_table ∧
   m_skips (resize 4 hooked_table).2 = m_skips hooked_table) ∧
  ((at_ (2 - 1) (resize 2 (make 8 4)).2).1 = Ok (MkPointRef (2 - 1)) ∧
   point_bytes (2 - 1) (resize 2 (make 8 4)).2
   = point_bytes (2 - 1) (make 8 4)).
Proof.
  split; [|split].
  - assert (6 * m_pointSize (make 8 4) < 2 ^ 64) as Hfit by (by vm_compute).
    destruct (resize_grow_shrink (make 8 4) 6 Hfit)
      as (_ & _ & _ & _ & _ & _ & Hgrow).
    apply (Hgrow 4); by vm_compute.
  - assert (4 * m_pointSize hooked_table < 2 ^ 64) as Hfit by (by vm_compute).
    destruct (resize_grow_shrink hooked_table 4 Hfit)
      as (_ & _ & Hdata & Hmask & _).
    split.
    + rewrite Hdata by (by vm_compute). by vm_compute.
    + rewrite Hmask by (by vm_compute). by vm_compute.
  - assert (2 * m_pointSize (make 8 4) < 2 ^ 64) as Hfit by (by vm_compute).
    destruct (resize_grow_shrink (make 8 4) 2 Hfit)
      as (_ & _ & _ & _ & Hshrink & _).
    destruct Hshrink as (_ & Hlast); [by vm_compute|].
    apply Hlast. by vm_compute.
Defined.

(** After [setNumPoints(2)] on an adopted table of four 8-byte records
    the logical size is 2; [resize(4)] then appends no zero bytes (the
    last two records keep their non-zero bytes) and no unskipped entries
    (the flag of index 3 stays set). *)
Lemma resize_from_hooked_size_adds_nothing :
  size hooked_table = 2 ∧
  m_data (resize 4 hooked_table).2
  ≠ take (N.to_nat (2 * 8)) (m_data hooked_table)
    ++ vec_fill ((4 - 2) * 8) x00 ∧
  m_skips (resize 4 hooked_table).2
  ≠ take (N.to_nat 2) (m_skips hooked_table) ++ vec_fill (4 - 2) false ∧
  skip 3 (resize 4 hooked_table).2 = Ok true.
Proof. split_and!; by vm_compute. Qed.

(** ** The skip-aware iterator *)

Section traversal.
Variable tbl : t.
Hypothesis size_u64 : size tbl < 2 ^ 64.

(** The loop never moves the index down. *)
Lemma skip_loop_ge (fuel : nat) (i : N) :
  i ≤ (Iterator.skip_loop fuel tbl i).2.
Proof.
  revert i. induction fuel as [|fuel IH]; intros i; simpl; [done|].
  destruct (N.ltb_spec i (size tbl)); [|done].
  destruct (skip i tbl) as [[|]|]; simpl; try done.
  rewrite wrap64_small by lia.
  specialize (IH (i + 1)). lia.
Qed.

Hypothesis mask_covers : size tbl ≤ vec_size (m_skips tbl).

Lemma skip_in_range (i : N) : i < size tbl → ∃ b, skip i tbl = Ok b.
Proof. intros Hi. apply vec_at_in_range. lia. Qed.

(** With enough fuel the loop stops, without an exception, on the first
    index from [i] on that is not skipped, or on [size]. *)
Lemma skip_loop_spec (fuel : nat) (i : N) :
  i ≤ size tbl →
  (N.to_nat (size tbl - i) ≤ fuel)%nat →
  ∃ j, Iterator.skip_loop fuel tbl i = (Ok (), j) ∧
       i ≤ j ≤ size tbl ∧
       (∀ x, i ≤ x < j → skip x tbl = Ok true) ∧
       (j < size tbl → skip j tbl = Ok false).
Proof.
  revert i. induction fuel as [|fuel IH]; intros i Hi Hfuel; simpl.
  - exists i. split_and!; (done || lia).
  - destruct (N.ltb_spec i (size tbl)) as [Hlt|Hge].
    + destruct (skip_in_range i Hlt) as [[|] Hb]; rewrite Hb.
      * rewrite wrap64_small by lia.
        destruct (IH (i + 1)) as (j & Hrun & Hj & Hskipped & Hstop);
          [lia | lia |].
        exists j. split_and!; try done; try lia.
        intros x Hx. destruct (decide (x = i)) as [->|]; [done|].
        apply Hskipped. lia.
      * exists i. split_and!; try done; lia.
    + exists i. split_and!; (done || lia).
Qed.

Lemma skip_while_spec (i : N) :
  i ≤ size tbl →
  ∃ j, Iterator.skip_while tbl i = (Ok (), j) ∧
       i ≤ j ≤ size tbl ∧
       (∀ x, i ≤ x < j → skip x tbl = Ok true) ∧
       (j < size tbl → skip j tbl = Ok false).
Proof. intros Hi. by apply skip_loop_spec. Qed.

Lemma end_eq :
  end_ tbl = Ok {| Iterator.m_index := size tbl;
                   Iterator.m_pointRef := MkPointRef (size tbl) |}.
Proof.
  unfold end_, Iterator.make.
  destruct (skip_while_spec (size tbl)) as (j & -> & Hj & _); [lia|].
  by replace j with (size tbl) by lia.
Qed.

Lemma begin_spec :
  ∃ j, begin tbl = Ok {| Iterator.m_index := j;
                         Iterator.m_pointRef := MkPointRef j |} ∧
       j ≤ size tbl ∧
       (∀ x, x < j → skip x tbl = Ok true) ∧
       (j < size tbl → skip j tbl = Ok false).
Proof.
  unfold begin, Iterator.make.
  destruct (skip_while_spec 0) as (j & -> & Hj & Hskipped & Hstop); [lia|].
  exists j. split_and!; try done; try lia.
  intros x Hx. apply Hskipped. lia.
Qed.

Lemma pre_increment_spec (it : Iterator.t) :
  Iterator.m_index it < size tbl →
  ∃ j, Iterator.pre_increment tbl it
       = (Ok (), {| Iterator.m_index := j;
                    Iterator.m_pointRef := MkPointRef j |}) ∧
       Iterator.m_index it < j ≤ size tbl ∧
       (∀ x, Iterator.m_index it < x < j → skip x tbl = Ok true) ∧
       (j < size tbl → skip j tbl = Ok false).
Proof.
  intros Hlt. unfold Iterator.pre_increment.
  rewrite wrap64_small by lia.
  destruct (skip_while_spec (Iterator.m_index it + 1))
    as (j & -> & Hj & Hskipped & Hstop); [lia|].
  exists j. split_and!; try done; try lia.
  intros x Hx. apply Hskipped. lia.
Qed.

(** From an iterator resting on an unskipped index (or on [size]) the
    traversal ends without an exception and visits, in increasing
    order, exactly the unskipped indices from there on. *)
Lemma for_loop_spec (fuel : nat) (it : Iterator.t) :
  let i := Iterator.m_index it in
  let last := {| Iterator.m_index := size tbl;
                 Iterator.m_pointRef := MkPointRef (size tbl) |} in
  handle_follows it →
  i ≤ size tbl →
  (i < size tbl → skip i tbl = Ok false) →
  (N.to_nat (size tbl - i) ≤ fuel)%nat →
  ∃ l, for_loop fuel tbl it last = Ok l ∧
       (∀ x, x ∈ l ↔ i ≤ x < size tbl ∧ skip x tbl = Ok false) ∧
       StronglySorted N.lt l.
Proof.
  revert it. induction fuel as [|fuel IH];
    intros it i last Hhandle Hi Hhere Hfuel; simpl.
  - exists []. split_and!; [done | | constructor].
    intros x. split; [by intros ?%elem_of_nil | lia].
  - unfold Iterator.neq; simpl. fold i.
    destruct (N.eqb_spec i (size tbl)) as [Heq|Hne]; simpl.
    + exists []. split_and!; [done | | constructor].
      intros x. split; [by intros ?%elem_of_nil | lia].
    + destruct (pre_increment_spec it)
        as (j & -> & Hj & Hskipped & Hstop); [fold i; lia|].
      fold i in Hj, Hskipped.
      destruct (IH {| Iterator.m_index := j;
                      Iterator.m_pointRef := MkPointRef j |})
        as (l & Hrun & Hmem & Hsorted); simpl; try done; try lia.
      fold last in Hrun. rewrite Hrun.
      unfold Iterator.deref. rewrite Hhandle. simpl. fold i.
      exists (i :: l). split_and!; [done | |].
      * intros x. rewrite elem_of_cons, Hmem. simpl. split.
        { intros [->|[Hx Hunskipped]]; [|split; [lia | done]].
          split; [lia | apply Hhere; lia]. }
        intros [Hx Hunskipped].
        destruct (decide (x = i)) as [|Hxi]; [by left | right].
        split; [|done].
        destruct (N.lt_ge_cases x j) as [Hxj|]; [|lia].
        rewrite Hskipped in Hunskipped by lia. done.
      * constructor; [done|]. apply Forall_forall. intros x Hx.
        apply Hmem in Hx. simpl in Hx. lia.
Qed.

(** A traversal from [begin()] to [end()] visits exactly the unskipped
    indices below [size], in increasing order. *)
Lemma iterate_spec :
  ∃ l, iterate tbl = Ok l ∧
       (∀ x, x ∈ l ↔ x < size tbl ∧ skip x tbl = Ok false) ∧
       StronglySorted N.lt l.
Proof.
  unfold iterate. rewrite end_eq.
  destruct begin_spec as (j & -> & Hj & Hskipped & Hstop).
  destruct (for_loop_spec
              (N.to_nat (size tbl - j))
              {| Iterator.m_index := j;
                 Iterator.m_pointRef := MkPointRef j |})
    as (l & Hrun & Hmem & Hsorted); simpl; try done.
  simpl in Hrun. rewrite Hrun. exists l. split_and!; try done.
  intros x. rewrite Hmem. simpl. split; [intros [? ?]; split; [lia|done]|].
  intros [Hx Hunskipped]. split; [|done]. split; [|done].
  destruct (N.lt_ge_cases x j) as [Hxj|]; [|lia].
  rewrite Hskipped in Hunskipped by lia. done.
Qed.
End traversal.

Lemma setSkip_eq (n : N) (tbl : t) :
  setSkip n tbl
  = if decide (n < vec_size (m_skips tbl))
    then (Ok (),
          {| m_pointSize := m_pointSize tbl; m_data := m_data tbl;
             m_size := m_size tbl;
             m_skips := <[N.to_nat n := true]> (m_skips tbl) |})
    else (Throw (out_of_range "vector::_M_range_check"), tbl).
Proof.
  unfold setSkip, vec_at_put, vec_size, mbind, method_bind, this; simpl.
  destruct (decide _) as [Hlt|Hge].
  - by destruct (lookup_lt_is_Some_2 (m_skips tbl) (N.to_nat n)) as [b ->];
      [lia|].
  - by rewrite lookup_ge_None_2 by lia.
Qed.

(** C6. On a table whose mask covers its logical size: after [setSkip(i)]
    with [i < size] the traversal from [begin()] to [end()] ends normally
    and does not visit [i]; in general it visits exactly the unskipped
    indices; [begin()] rests on the first unskipped index, or on [size]
    when there is none; and when every index is skipped the traversal
    visits nothing and [begin()] is [end()]. *)
Theorem iteration_omits_skipped (tbl : t) (i : N) :
  size tbl < 2 ^ 64 →
  size tbl ≤ vec_size (m_skips tbl) →
  (i < size tbl →
   (setSkip i tbl).1 = Ok () ∧
   ∃ l, iterate (setSkip i tbl).2 = Ok l ∧ i ∉ l) ∧
  (∃ l, iterate tbl = Ok l ∧
        ∀ x, x ∈ l ↔ x < size tbl ∧ skip x tbl = Ok false) ∧
  (∃ first, begin tbl = Ok first ∧
            Iterator.m_index first ≤ size tbl ∧
            (∀ x, x < Iterator.m_index first → skip x tbl = Ok true) ∧
            (Iterator.m_index first < size tbl →
             skip (Iterator.m_index first) tbl = Ok false)) ∧
  ((∀ x, x < size tbl → skip x tbl = Ok true) →
   iterate tbl = Ok [] ∧
   begin tbl = end_ tbl ∧
   ∃ first, begin tbl = Ok first ∧ Iterator.m_index first = size tbl).
Proof.
  intros Hu64 Hmask. split_and!.
  - intros Hi. rewrite setSkip_eq. rewrite decide_True by lia. simpl.
    split; [done|].
    set (tbl' := Build _ _ _ _).
    assert (skip i tbl' = Ok true) as Hskipped.
    { apply vec_at_Ok. simpl. apply list_lookup_insert_eq.
      unfold vec_size in Hmask. lia. }
    destruct (iterate_spec tbl') as (l & Hrun & Hmem & _); [done | |].
    { simpl. unfold vec_size in *. rewrite length_insert. done. }
    exists l. split; [done|]. intros [_ Hin]%Hmem. congruence.
  - destruct (iterate_spec tbl Hu64 Hmask) as (l & Hrun & Hmem & _). eauto.
  - destruct (begin_spec tbl Hu64 Hmask) as (j & Hbegin & Hj). eauto.
  - intros Hall.
    destruct (begin_spec tbl Hu64 Hmask) as (j & Hbegin & Hj & _ & Hstop).
    assert (j = size tbl) as ->.
    { destruct (N.lt_ge_cases j (size tbl)) as [Hlt|]; [|lia].
      rewrite Hall in Hstop by done. by specialize (Hstop Hlt). }
    split_and!.
    + unfold iterate. rewrite Hbegin, end_eq by done. simpl.
      by rewrite N.sub_diag.
    + by rewrite Hbegin, end_eq.
    + eauto.
Qed.

Lemma iteration_omits_skipped_witness :
  ((setSkip 1 (make 8 4)).1 = Ok () ∧
   ∃ l, iterate (setSkip 1 (make 8 4)).2 = Ok l ∧ 1 ∉ l) ∧
  (iterate (run [SetSkip 0; SetSkip 1] (make 8 2)) = Ok [] ∧
   begin (run [SetSkip 0; SetSkip 1] (make 8 2))
   = end_ (run [SetSkip 0; SetSkip 1] (make 8 2)) ∧
   ∃ first, begin (run [SetSkip 0; SetSkip 1] (make 8 2)) = Ok first ∧
            Iterator.m_index first
            = size (run [SetSkip 0; SetSkip 1] (make 8 2))).
Proof.
  split.
  - assert (size (make 8 4) < 2 ^ 64) as Hu64 by (by vm_compute).
    assert (size (make 8 4) ≤ vec_size (m_skips (make 8 4))) as Hmask
      by (by vm_compute).
    destruct (iteration_omits_skipped (make 8 4) 1 Hu64 Hmask)
      as (Hskip & _).
    apply Hskip. by vm_compute.
  - set (tbl := run [SetSkip 0; SetSkip 1] (make 8 2)).
    assert (size tbl < 2 ^ 64) as Hu64 by (by vm_compute).
    assert (size tbl ≤ vec_size (m_skips tbl)) as Hmask by (by vm_compute).
    destruct (iteration_omits_skipped tbl 0 Hu64 Hmask)
      as (_ & _ & _ & Hall).
    apply Hall. intros x Hx.
    change (size tbl) with 2 in Hx.
    assert (x = 0 ∨ x = 1) as [-> | ->] by lia; by vm_compute.
Defined.

(** C10. [it++] leaves [it] where it was, also when it throws; what it
    returns is a copy of [it] after [operator++()], which (for 64-bit
    positions) rests on a later index than [it]. *)
Theorem post_increment_keeps_position (table : t) (it : Iterator.t) :
  (Iterator.post_increment table it).2 = it ∧
  (Iterator.post_increment table it).1
  = match Iterator.pre_increment table it with
    | (Ok _, other) => Ok other
    | (Throw e, _) => Throw e
    end ∧
  (∀ other,
     (Iterator.post_increment table it).1 = Ok other →
     size table < 2 ^ 64 →
     Iterator.m_index it + 1 < 2 ^ 64 →
     Iterator.m_index it < Iterator.m_index other).
Proof.
  unfold Iterator.post_increment.
  destruct (Iterator.pre_increment table it) as [r other'] eqn:Hpre.
  simpl. split_and!; [done | done |].
  intros other Hother Hu64 Hnext.
  unfold Iterator.pre_increment, Iterator.skip_while in Hpre.
  pose proof (skip_loop_ge table Hu64
                (N.to_nat (size table - wrap64 (Iterator.m_index it + 1)))
                (wrap64 (Iterator.m_index it + 1))) as Hge.
  destruct (Iterator.skip_loop _ _ _) as [r' j].
  rewrite wrap64_small in Hge by done.
  injection Hpre as <- <-. destruct r'; [|done].
  injection Hother as <-. simpl in *. lia.
Qed.

Lemma post_increment_keeps_position_witness :
  (Iterator.post_increment scenario_skipped
     {| Iterator.m_index := 0; Iterator.m_pointRef := MkPointRef 0 |}).1
  = Ok {| Iterator.m_index := 2; Iterator.m_pointRef := MkPointRef 2 |} ∧
  Iterator.m_index
    {| Iterator.m_index := 0; Iterator.m_pointRef := MkPointRef 0 |}
  < Iterator.m_index
      {| Iterator.m_index := 2; Iterator.m_pointRef := MkPointRef 2 |}.
Proof.
  split; [by vm_compute|].
  destruct (post_increment_keeps_position scenario_skipped
              {| Iterator.m_index := 0; Iterator.m_pointRef := MkPointRef 0 |})
    as (_ & _ & Hlater).
  apply Hlater; by vm_compute.
Defined.

(** ** VectorPointTable: what the operations preserve *)

Lemma run_app (pre post : list op) (tbl : t) :
  run (pre ++ post) tbl = run post (run pre tbl).
Proof. apply foldl_app. Qed.

Lemma run_op_pointSize (o : op) (tbl : t) :
  m_pointSize (run_op o tbl) = m_pointSize tbl.
Proof.
  destruct o as [np|d|s|n|]; try done.
  simpl. rewrite setSkip_eq. by destruct (decide _).
Qed.

Lemma constructed_inv (pointSize : N) (tbl : t) :
  constructed pointSize tbl →
  m_pointSize tbl = pointSize ∧ buffer_aligned tbl ∧ mask_matches tbl.
Proof.
  intros [np Hfit | data tbl' Hadopt].
  - unfold buffer_aligned, mask_matches; simpl.
    rewrite !vec_size_fill, wrap64_small by done.
    split_and!; [done | apply N.Div0.mod_mul | done].
  - destruct (decide (vec_size data mod pointSize = 0)) as [Hmod|Hmod].
    + rewrite adopt_Ok in Hadopt by done. injection Hadopt as <-.
      unfold buffer_aligned, mask_matches; simpl.
      by rewrite vec_size_fill.
    + by rewrite adopt_Throw in Hadopt.
Qed.

(** [resize] and [assign] leave the mask as long as the logical size,
    whatever the table was before. *)
Lemma run_op_sets_mask (o : op) (tbl : t) :
  sets_mask o = true → mask_matches (run_op o tbl).
Proof.
  destruct o as [np|d|s|n|]; try done; intros _;
    unfold mask_matches; simpl; apply vec_size_resize.
Qed.

(** Every operation but [setNumPoints] keeps the mask as long as the
    logical size. *)
Lemma run_op_keeps_mask (o : op) (tbl : t) :
  is_SetNumPoints o = false → mask_matches tbl → mask_matches (run_op o tbl).
Proof.
  destruct o as [np|d|s|n|]; try done; intros _ Hmask.
  - by apply run_op_sets_mask.
  - by apply run_op_sets_mask.
  - simpl. rewrite setSkip_eq. destruct (decide _); [|done].
    unfold mask_matches, vec_size in *; simpl. by rewrite length_insert.
Qed.

Lemma run_keeps_mask (ops : list op) (tbl : t) :
  Forall (λ o, is_SetNumPoints o = false) ops →
  mask_matches tbl → mask_matches (run ops tbl).
Proof.
  intros Hops. revert tbl.
  induction Hops as [|o ops Ho _ IH]; intros tbl Hmask; [done|].
  change (run (o :: ops) tbl) with (run ops (run_op o tbl)).
  by apply IH, run_op_keeps_mask.
Qed.

Lemma run_op_keeps_aligned (o : op) (tbl : t) :
  op_fits (m_pointSize tbl) o →
  buffer_aligned tbl → buffer_aligned (run_op o tbl).
Proof.
  destruct o as [np|d|s|n|]; intros Hfit Haligned; try done.
  - unfold buffer_aligned; simpl in *.
    rewrite vec_size_resize, wrap64_small by done. apply N.Div0.mod_mul.
  - simpl. rewrite setSkip_eq. by destruct (decide _).
Qed.

Lemma run_keeps_aligned (ops : list op) (tbl : t) :
  Forall (op_fits (m_pointSize tbl)) ops →
  buffer_aligned tbl → buffer_aligned (run ops tbl).
Proof.
  revert tbl. induction ops as [|o ops IH]; intros tbl Hops Haligned; [done|].
  apply Forall_cons in Hops as [Ho Hops].
  change (run (o :: ops) tbl) with (run ops (run_op o tbl)).
  apply IH; [by rewrite run_op_pointSize | by apply run_op_keeps_aligned].
Qed.

(** C2, as the code has it. From a constructed table of records of at
    least one byte, after any sequence
    of resize, assign, setNumPoints, setSkip and acquire: the buffer length
    is a multiple of [pointSize], provided every resize asks for a
    byte count that is a [size_t] and every assigned buffer holds whole
    records; the skip mask is as long as the logical size whenever no
    [setNumPoints] came after the construction or the last resize or
    assign; and [setNumPoints(s)] itself sets the logical size to [s] and
    leaves buffer and mask as they are. *)
Theorem table_invariants (pointSize : N) (tbl0 : t) (ops : list op) :
  0 < pointSize →
  constructed pointSize tbl0 →
  (Forall (op_fits pointSize) ops → buffer_aligned (run ops tbl0)) ∧
  (∀ pre post,
     ops = pre ++ post →
     pre = [] ∨ (∃ pre' o, pre = pre' ++ [o] ∧ sets_mask o = true) →
     Forall (λ o, is_SetNumPoints o = false) post →
     mask_matches (run ops tbl0)) ∧
  (∀ s tbl,
     size (setNumPoints s tbl).2 = s ∧
     m_data (setNumPoints s tbl).2 = m_data tbl ∧
     m_skips (setNumPoints s tbl).2 = m_skips tbl ∧
     m_pointSize (setNumPoints s tbl).2 = m_pointSize tbl).
Proof.
  intros _ (Hps & Haligned & Hmask)%constructed_inv. split_and!.
  - intros Hops. apply run_keeps_aligned; [by rewrite Hps | done].
  - intros pre post -> Hpre Hpost. rewrite run_app.
    apply run_keeps_mask; [done|].
    destruct Hpre as [-> | (pre' & o & -> & Ho)]; [done|].
    rewrite run_app. by apply run_op_sets_mask.
  - done.
Qed.

Lemma table_invariants_witness :
  let ops := [SetSkip 1; SetNumPoints 3; Resize 2; SetSkip 0; Acquire] in
  buffer_aligned (run ops (make 8 4)) ∧ mask_matches (run ops (make 8 4)).
Proof.
  intros ops.
  assert (constructed 8 (make 8 4)) as Hmade
    by (by apply constructed_make; vm_compute).
  destruct (table_invariants 8 (make 8 4) ops eq_refl Hmade)
    as (Haligned & Hmask & _).
  split.
  - apply Haligned. unfold ops. repeat constructor; by vm_compute.
  - apply (Hmask [SetSkip 1; SetNumPoints 3; Resize 2] [SetSkip 0; Acquire]).
    + done.
    + right. by exists [SetSkip 1; SetNumPoints 3], (Resize 2).
    + by repeat constructor.
Defined.

(** After [setNumPoints(2)] on a freshly made table of 4 points the mask
    still has 4 entries while the logical size is 2. *)
Lemma setNumPoints_breaks_mask_length :
  constructed 8 (make 8 4) ∧
  ¬ mask_matches (run [SetNumPoints 2] (make 8 4)).
Proof.
  split; [by apply constructed_make; vm_compute|].
  unfold mask_matches. by vm_compute.
Qed.

(** * Further properties *)

(** ** MemBlock: where the slots lie *)

Section arena_layout.
Variables pointSize pointsPerBlock : N.
Hypothesis pointSize_pos : 1 ≤ pointSize.
Hypothesis pointsPerBlock_pos : 1 ≤ pointsPerBlock.
Hypothesis block_fits : pointsPerBlock * pointSize < 2 ^ 64.

Local Abbreviation fresh := (MemBlock.make pointSize pointsPerBlock).

Lemma next_pos (mb : MemBlock.t) :
  MemBlock.m_pos ((MemBlock.next mb).2)
  = ptr_add ((MemBlock.next mb).1) (MemBlock.m_pointSize mb).
Proof. unfold MemBlock.next. simpl. by destruct (decide _). Qed.

(** The call numbered [n + 1] returns the slot [n mod k] of block
    [n / k]. *)
Lemma next_result (n : nat) (mb : MemBlock.t) :
  cursor_inv pointSize pointsPerBlock n mb →
  (MemBlock.next mb).1 = slot_address pointSize pointsPerBlock n.
Proof.
  intros Hinv.
  destruct (next_inv _ _ pointSize_pos pointsPerBlock_pos block_fits n mb Hinv)
    as ((_ & _ & _ & _ & Hcur) & _).
  pose proof (next_pos mb) as Hpos.
  destruct Hinv as (Hps & _). rewrite Hps in Hpos.
  destruct Hcur as [(? & _) | (b & c & Hc & Hn & _ & Hpos' & _)]; [done|].
  rewrite Hpos' in Hpos.
  destruct ((MemBlock.next mb).1) as [[b' o]|]; [|done].
  simpl in Hpos. injection Hpos as Hb Ho. subst b'. unfold slot_address.
  assert (N.of_nat n = N.of_nat b * pointsPerBlock + (c - 1)) as Hn' by lia.
  assert (N.of_nat n / pointsPerBlock = N.of_nat b) as ->.
  { symmetry. apply (N.div_unique _ _ _ (c - 1)); lia. }
  assert (N.of_nat n mod pointsPerBlock = c - 1) as ->.
  { symmetry. apply (N.mod_unique _ _ (N.of_nat b)); lia. }
  rewrite Nat2N.id. do 2 f_equal. nia.
Qed.

Lemma calls_layout (n : nat) :
  (MemBlock.calls n fresh).1
  = slot_address pointSize pointsPerBlock <$> seq 0 n.
Proof.
  induction n as [|n IH]; [done|].
  rewrite calls_S, seq_S, fmap_app. simpl. rewrite IH. do 2 f_equal.
  apply next_result.
  by apply calls_inv.
Qed.

Lemma after_num_blocks (n : nat) :
  N.of_nat (MemBlock.num_blocks (MemBlock.after n fresh))
  = (N.of_nat n + pointsPerBlock - 1) / pointsPerBlock.
Proof.
  destruct (calls_inv _ _ pointSize_pos pointsPerBlock_pos block_fits n)
    as ((_ & _ & _ & _ & Hcur) & _).
  unfold MemBlock.num_blocks.
  destruct Hcur as [(-> & _ & _ & ->) | (b & c & Hc & Hn & -> & _)].
  - simpl. symmetry. apply N.div_small. lia.
  - apply (N.div_unique _ _ _ (c - 1)); lia.
Qed.
End arena_layout.

Lemma next_block_sizes (mb : MemBlock.t) :
  Forall (λ b, vec_size b = MemBlock.m_bytesPerBlock mb) (MemBlock.m_blocks mb) →
  MemBlock.m_bytesPerBlock ((MemBlock.next mb).2) = MemBlock.m_bytesPerBlock mb ∧
  MemBlock.m_pointSize ((MemBlock.next mb).2) = MemBlock.m_pointSize mb ∧
  MemBlock.m_pointsPerBlock ((MemBlock.next mb).2)
  = MemBlock.m_pointsPerBlock mb ∧
  Forall (λ b, vec_size b = MemBlock.m_bytesPerBlock mb)
         (MemBlock.m_blocks ((MemBlock.next mb).2)).
Proof.
  intros Hall. unfold MemBlock.next. simpl.
  destruct (decide _); simpl; split_and!; try done.
  apply Forall_app. split; [done|].
  apply Forall_singleton, vec_size_fill.
Qed.

Lemma after_block_sizes (n : nat) (mb : MemBlock.t) :
  Forall (λ b, vec_size b = MemBlock.m_bytesPerBlock mb) (MemBlock.m_blocks mb) →
  MemBlock.m_bytesPerBlock (MemBlock.after n mb) = MemBlock.m_bytesPerBlock mb ∧
  MemBlock.m_pointSize (MemBlock.after n mb) = MemBlock.m_pointSize mb ∧
  MemBlock.m_pointsPerBlock (MemBlock.after n mb)
  = MemBlock.m_pointsPerBlock mb ∧
  Forall (λ b, vec_size b = MemBlock.m_bytesPerBlock mb)
         (MemBlock.m_blocks (MemBlock.after n mb)).
Proof.
  intros Hall. induction n as [|n (IHb & IHs & IHk & IH)]; [done|].
  rewrite after_S.
  rewrite <- IHb in IH.
  destruct (next_block_sizes _ IH) as (-> & -> & -> & Hnext).
  rewrite IHb in Hnext. done.
Qed.

(** X1. Every slot issued lies, whole, inside a block the arena owns: the
    call numbered [j + 1] returns the address [(j mod k) * pointSize] of
    block [j / k], that block exists, and it has room for [pointSize]
    bytes from that offset. *)
Theorem MemBlock_slot_in_block (pointSize pointsPerBlock : N) (n j : nat) :
  1 ≤ pointSize →
  1 ≤ pointsPerBlock →
  pointsPerBlock * pointSize < 2 ^ 64 →
  (j < n)%nat →
  let mb := MemBlock.make pointSize pointsPerBlock in
  ∃ a block,
    (MemBlock.calls n mb).1 !! j = Some (Some a) ∧
    Some a = slot_address pointSize pointsPerBlock j ∧
    MemBlock.m_blocks (MemBlock.after n mb) !! blk a = Some block ∧
    off a + pointSize ≤ vec_size block.
Proof.
  intros Hps Hk Hfit Hj mb.
  set (q := N.of_nat j / pointsPerBlock).
  set (r := N.of_nat j mod pointsPerBlock).
  assert (r < pointsPerBlock) as Hr by (apply N.mod_lt; lia).
  assert (N.of_nat j = pointsPerBlock * q + r) as Hjqr
    by (apply N.div_mod; lia).
  assert (N.to_nat q < MemBlock.num_blocks (MemBlock.after n mb))%nat as Hq.
  { pose proof (after_num_blocks _ _ Hps Hk Hfit n) as Hblocks. fold mb in Hblocks.
    assert (q < (N.of_nat n + pointsPerBlock - 1) / pointsPerBlock); [|lia].
    apply N.Div0.div_lt_upper_bound.
    assert (pointsPerBlock * ((N.of_nat n + pointsPerBlock - 1) / pointsPerBlock)
            + (N.of_nat n + pointsPerBlock - 1) mod pointsPerBlock
            = N.of_nat n + pointsPerBlock - 1) as Hdm
      by (symmetry; apply N.div_mod; lia).
    assert ((N.of_nat n + pointsPerBlock - 1) mod pointsPerBlock
            < pointsPerBlock) by (apply N.mod_lt; lia).
    nia. }
  destruct (lookup_lt_is_Some_2 _ _ Hq) as [block Hblock].
  destruct (after_block_sizes n mb) as (_ & _ & _ & Hsizes); [constructor|].
  rewrite Forall_lookup in Hsizes. pose proof (Hsizes _ _ Hblock) as Hsize.
  simpl in Hsize. rewrite wrap64_small in Hsize by done.
  exists (Addr (N.to_nat q) (r * pointSize)), block. split_and!.
  - unfold mb. rewrite (calls_layout _ _ Hps Hk Hfit).
    rewrite list_lookup_fmap, lookup_seq_lt by done. done.
  - done.
  - done.
  - simpl. rewrite Hsize. nia.
Qed.

Lemma MemBlock_slot_in_block_witness :
  ∃ a block,
    (MemBlock.calls 5 (MemBlock.make 4 2)).1 !! 3%nat = Some (Some a) ∧
    Some a = slot_address 4 2 3 ∧
    MemBlock.m_blocks (MemBlock.after 5 (MemBlock.make 4 2)) !! blk a
    = Some block ∧
    off a + 4 ≤ vec_size block.
Proof. apply (MemBlock_slot_in_block 4 2 5 3); first [lia | by vm_compute]. Defined.

(** X2. No two slots overlap: two different calls return addresses in
    different blocks, or at offsets at least [pointSize] apart. *)
Theorem MemBlock_slots_disjoint (pointSize pointsPerBlock : N) (n i j : nat)
    (a a' : addr) :
  1 ≤ pointSize →
  1 ≤ pointsPerBlock →
  pointsPerBlock * pointSize < 2 ^ 64 →
  i ≠ j →
  (MemBlock.calls n (MemBlock.make pointSize pointsPerBlock)).1 !! i
  = Some (Some a) →
  (MemBlock.calls n (MemBlock.make pointSize pointsPerBlock)).1 !! j
  = Some (Some a') →
  blk a ≠ blk a' ∨ off a + pointSize ≤ off a' ∨ off a' + pointSize ≤ off a.
Proof.
  intros Hps Hk Hfit Hij.
  rewrite (calls_layout _ _ Hps Hk Hfit), !list_lookup_fmap.
  intros Hi Hj.
  destruct (seq 0 n !! i) as [i'|] eqn:Hi'; [|done].
  destruct (seq 0 n !! j) as [j'|] eqn:Hj'; [|done].
  apply lookup_seq in Hi' as [-> _]. apply lookup_seq in Hj' as [-> _].
  simpl in Hi, Hj. injection Hi as <-. injection Hj as <-. simpl.
  set (qi := N.of_nat i / pointsPerBlock).
  set (ri := N.of_nat i mod pointsPerBlock).
  set (qj := N.of_nat j / pointsPerBlock).
  set (rj := N.of_nat j mod pointsPerBlock).
  assert (N.of_nat i = pointsPerBlock * qi + ri) by (apply N.div_mod; lia).
  assert (N.of_nat j = pointsPerBlock * qj + rj) by (apply N.div_mod; lia).
  destruct (decide (qi = qj)) as [Hq|Hq]; [|left; lia].
  right. assert (ri ≠ rj) by (intros ?; apply Hij; nia).
  destruct (N.lt_ge_cases ri rj); [left | right]; nia.
Qed.

Lemma MemBlock_slots_disjoint_witness :
  blk (Addr 0 4) ≠ blk (Addr 1 4) ∨
  off (Addr 0 4) + 4 ≤ off (Addr 1 4) ∨ off (Addr 1 4) + 4 ≤ off (Addr 0 4).
Proof.
  apply (MemBlock_slots_disjoint 4 2 5 1 3); first [lia | by vm_compute].
Defined.

(** X3. After [n] calls the arena owns [⌈n / pointsPerBlock⌉] blocks, each
    of [pointsPerBlock * pointSize] bytes. *)
Theorem MemBlock_blocks_owned (pointSize pointsPerBlock : N) (n : nat) :
  1 ≤ pointSize →
  1 ≤ pointsPerBlock →
  pointsPerBlock * pointSize < 2 ^ 64 →
  let mb := MemBlock.after n (MemBlock.make pointSize pointsPerBlock) in
  N.of_nat (MemBlock.num_blocks mb)
  = (N.of_nat n + pointsPerBlock - 1) / pointsPerBlock ∧
  Forall (λ b, vec_size b = pointsPerBlock * pointSize) (MemBlock.m_blocks mb).
Proof.
  intros Hps Hk Hfit mb. split.
  - by apply after_num_blocks.
  - destruct (after_block_sizes n (MemBlock.make pointSize pointsPerBlock))
      as (_ & _ & _ & Hsizes); [constructor|].
    simpl in Hsizes. by rewrite wrap64_small in Hsizes.
Qed.

Lemma MemBlock_blocks_owned_witness :
  N.of_nat (MemBlock.num_blocks (MemBlock.after 5 (MemBlock.make 4 2)))
  = (N.of_nat 5 + 2 - 1) / 2 ∧
  Forall (λ b, vec_size b = 2 * 4)
         (MemBlock.m_blocks (MemBlock.after 5 (MemBlock.make 4 2))).
Proof. apply (MemBlock_blocks_owned 4 2 5); by vm_compute. Defined.

(** X4. [clear()] brings an arena back to its state at construction, so
    the calls of [next()] that follow hand out the same slots (block
    number and offset) as on a new arena, starting again at the first
    slot of the first block. *)
Theorem MemBlock_clear_restarts (pointSize pointsPerBlock : N) (n m : nat) :
  let mb := MemBlock.make pointSize pointsPerBlock in
  MemBlock.clear (MemBlock.after n mb) = mb ∧
  MemBlock.calls m (MemBlock.clear (MemBlock.after n mb)) = MemBlock.calls m mb.
Proof.
  intros mb.
  assert (MemBlock.clear (MemBlock.after n mb) = mb) as Hclear.
  { destruct (after_block_sizes n mb) as (Hb & Hs & Hk & _); [constructor|].
    unfold MemBlock.clear. by rewrite Hb, Hs, Hk. }
  by rewrite Hclear.
Qed.

(** ** BlockPointTable: the write cursor *)

Lemma addPoint_calls_spec (n : nat) (tbl : BlockPointTable.t) :
  BlockPointTable.m_index tbl < 2 ^ 64 →
  (addPoint_calls n tbl).1
  = (λ j, wrap64 (BlockPointTable.m_index tbl + N.of_nat j)) <$> seq 0 n ∧
  BlockPointTable.m_index ((addPoint_calls n tbl).2)
  = wrap64 (BlockPointTable.m_index tbl + N.of_nat n) ∧
  BlockPointTable.m_refs ((addPoint_calls n tbl).2) = BlockPointTable.m_refs tbl.
Proof.
  intros Hidx. induction n as [|n (IHrs & IHidx & IHrefs)].
  - simpl. rewrite N.add_0_r, wrap64_small by done. done.
  - rewrite seq_S, fmap_app. cbn [addPoint_calls].
    destruct (addPoint_calls n tbl) as [rs tbl']. simpl in *.
    rewrite IHrs, IHidx, IHrefs.
    split_and!; try done.
    unfold wrap64. rewrite N.Div0.add_mod_idemp_l. f_equal. lia.
Qed.

(** X5. [addPoint()] on a new Write Adapter Table returns 0, 1, 2, ... in
    turn (modulo 2^64) and never looks at the slots: [size()] and every
    [getPoint] stay as they were, also once the indices returned have
    passed [size()]. *)
Theorem BlockPointTable_addPoint_counts (a b : MemBlock.t) (n : nat) :
  let w := BlockPointTable.make a b in
  (addPoint_calls n w).1 = (λ j, wrap64 (N.of_nat j)) <$> seq 0 n ∧
  BlockPointTable.size ((addPoint_calls n w).2) = BlockPointTable.size w ∧
  ∀ i, BlockPointTable.getPoint i ((addPoint_calls n w).2)
       = BlockPointTable.getPoint i w.
Proof.
  intros w.
  destruct (addPoint_calls_spec n w) as (Hrs & _ & Hrefs); [done|].
  unfold BlockPointTable.size, BlockPointTable.getPoint.
  rewrite Hrs, Hrefs. done.
Qed.

(** ** VectorPointTable: construction *)

Lemma index_range_sorted (n : N) : StronglySorted N.lt (index_range n).
Proof.
  unfold index_range. generalize (N.to_nat n) as m. intros m.
  induction m as [|m IH]; [constructor|].
  rewrite seq_S, fmap_app. apply StronglySorted_app; split_and!.
  - intros x y (x' & -> & Hx%elem_of_seq)%list_elem_of_fmap
      ->%list_elem_of_singleton.
    simpl. lia.
  - done.
  - repeat constructor.
Qed.

Lemma elem_of_index_range (n x : N) : x ∈ index_range n ↔ x < n.
Proof.
  unfold index_range. rewrite list_elem_of_fmap. split.
  - intros (y & -> & Hy%elem_of_seq). lia.
  - intros Hx. exists (N.to_nat x). rewrite elem_of_seq. lia.
Qed.

Lemma sorted_lt_eq (l k : list N) :
  StronglySorted N.lt l → StronglySorted N.lt k →
  (∀ x, x ∈ l ↔ x ∈ k) → l = k.
Proof.
  intros Hl Hk Hmem.
  assert (∀ m, StronglySorted N.lt m → NoDup m) as Hnodup.
  { intros m Hm. induction Hm as [|x m _ IH Hx]; constructor; [|done].
    intros Hin. rewrite Forall_forall in Hx. specialize (Hx _ Hin). lia. }
  apply (StronglySorted_unique_strong N.lt); try done.
  - intros x y _ _ ? ?. lia.
  - apply NoDup_Permutation; auto.
Qed.

Lemma sorted_lt_filter (P : N → Prop) `{!∀ x, Decision (P x)} (l : list N) :
  StronglySorted N.lt l → StronglySorted N.lt (filter P l).
Proof.
  induction 1 as [|x l _ IH Hx]; [constructor|].
  rewrite filter_cons. destruct (decide (P x)); [|done].
  constructor; [done|].
  rewrite Forall_forall in Hx |- *.
  intros y [_ Hy]%list_elem_of_filter. auto.
Qed.

Lemma unskipped_true (tbl : t) (x : N) :
  unskipped tbl x = true ↔ skip x tbl = Ok false.
Proof. unfold unskipped. by destruct (skip x tbl) as [[|]|]. Qed.

(** X6. A traversal from [begin()] to [end()] visits the unskipped
    indices below the logical size, each once, in increasing order. *)
Theorem iterate_unskipped_in_order (tbl : t) :
  size tbl < 2 ^ 64 →
  size tbl ≤ vec_size (m_skips tbl) →
  iterate tbl
  = Ok (filter (λ x, unskipped tbl x = true) (index_range (size tbl))).
Proof.
  intros Hu64 Hmask.
  destruct (iterate_spec tbl Hu64 Hmask) as (l & -> & Hmem & Hsorted).
  f_equal. apply sorted_lt_eq; [done | |].
  - apply sorted_lt_filter, index_range_sorted.
  - intros x. rewrite Hmem, list_elem_of_filter, elem_of_index_range.
    rewrite unskipped_true. tauto.
Qed.

Lemma iterate_unskipped_in_order_witness :
  iterate scenario_skipped
  = Ok (filter (λ x, unskipped scenario_skipped x = true)
               (index_range (size scenario_skipped))).
Proof. apply iterate_unskipped_in_order; by vm_compute. Defined.

Lemma iterate_all_unskipped (tbl : t) :
  size tbl < 2 ^ 64 →
  size tbl ≤ vec_size (m_skips tbl) →
  (∀ x, x < size tbl → skip x tbl = Ok false) →
  iterate tbl = Ok (index_range (size tbl)).
Proof.
  intros Hu64 Hmask Hnone.
  destruct (iterate_spec tbl Hu64 Hmask) as (l & -> & Hmem & Hsorted).
  f_equal. apply sorted_lt_eq; [done | apply index_range_sorted |].
  intros x. rewrite Hmem, elem_of_index_range.
  split; [by intros [? _] | intros Hx; split; [done | by apply Hnone]].
Qed.

Lemma skip_fill_false (n x : N) (tbl : t) :
  m_skips tbl = vec_fill n false → x < n → skip x tbl = Ok false.
Proof.
  intros Hskips Hx. apply vec_at_Ok. rewrite Hskips.
  apply lookup_replicate_2. lia.
Qed.

Lemma capacity_holds_points (n : N) (tbl : t) :
  0 < m_pointSize tbl → holds_points n tbl → capacity tbl = n.
Proof.
  intros Hps (_ & Hdata & _). unfold capacity. rewrite Hdata.
  apply N.div_mul. lia.
Qed.

(** X7. For records of at least one byte and a byte count that is a
    [size_t], the sizing constructor gives a table of [np] points:
    [size()] and [capacity()] are [np], the buffer is [np * pointSize]
    zero bytes, and a traversal visits 0, 1, ..., [np - 1]. *)
Theorem make_fresh_table (pointSize np : N) :
  0 < pointSize →
  np * pointSize < 2 ^ 64 →
  let tbl := make pointSize np in
  holds_points np tbl ∧
  capacity tbl = np ∧
  m_data tbl = replicate (N.to_nat (np * pointSize)) x00 ∧
  iterate tbl = Ok (index_range np).
Proof.
  intros Hps Hfit tbl.
  assert (holds_points np tbl) as Hholds.
  { unfold holds_points, tbl; simpl.
    by rewrite !vec_size_fill, wrap64_small. }
  split_and!; [done | by apply capacity_holds_points | |].
  - unfold tbl; simpl. by rewrite wrap64_small.
  - apply (iterate_all_unskipped tbl).
    + simpl. nia.
    + simpl. rewrite vec_size_fill. lia.
    + intros x Hx. by apply (skip_fill_false np).
Qed.

Lemma make_fresh_table_witness :
  holds_points 4 (make 8 4) ∧
  capacity (make 8 4) = 4 ∧
  m_data (make 8 4) = replicate (N.to_nat (4 * 8)) x00 ∧
  iterate (make 8 4) = Ok (index_range 4).
Proof. apply (make_fresh_table 8 4); by vm_compute. Defined.

(** X8. For records of at least one byte, the adopting constructor throws
    its runtime error exactly when the buffer length is not a multiple of
    [pointSize]; otherwise it keeps the buffer as given, [size()] and
    [capacity()] are [length / pointSize], nothing is skipped and a
    traversal visits every index. *)
Theorem adopt_checks_length (pointSize : N) (data : list byte) :
  0 < pointSize →
  vec_size data < 2 ^ 64 →
  (vec_size data mod pointSize ≠ 0 ↔ adopt pointSize data = Throw invalid_data) ∧
  (vec_size data mod pointSize = 0 →
   ∃ tbl, adopt pointSize data = Ok tbl ∧
          m_data tbl = data ∧
          holds_points (vec_size data / pointSize) tbl ∧
          capacity tbl = size tbl ∧
          iterate tbl = Ok (index_range (size tbl))).
Proof.
  intros Hps Hu64. split.
  - split; [apply adopt_Throw|].
    intros Hthrow Hmod. by rewrite adopt_Ok in Hthrow.
  - intros Hmod. eexists. split; [by apply adopt_Ok|].
    set (n := vec_size data / pointSize).
    assert (vec_size data = n * pointSize) as Hlen.
    { pose proof (N.div_mod (vec_size data) pointSize) as Hdm.
      rewrite Hmod in Hdm. fold n in Hdm. lia. }
    assert (holds_points n (Build pointSize data n (vec_fill n false)))
      as Hholds.
    { unfold holds_points; simpl. rewrite vec_size_fill. split_and!; (done || lia). }
    split_and!; [done | done | | ].
    + by rewrite (capacity_holds_points n).
    + apply (iterate_all_unskipped (Build _ _ _ _)).
      * simpl. nia.
      * simpl. rewrite vec_size_fill. lia.
      * intros x Hx. by apply (skip_fill_false n).
Qed.

Lemma adopt_checks_length_witness :
  adopt 16 (replicate 17 x00) = Throw invalid_data ∧
  ∃ tbl, adopt 16 (replicate 32 x00) = Ok tbl ∧
         m_data tbl = replicate 32 x00 ∧
         holds_points (vec_size (replicate 32 x00) / 16) tbl ∧
         capacity tbl = size tbl ∧
         iterate tbl = Ok (index_range (size tbl)).
Proof.
  split.
  - assert (vec_size (replicate 17 x00) < 2 ^ 64) as Hu64 by (by vm_compute).
    destruct (adopt_checks_length 16 (replicate 17 x00) eq_refl Hu64)
      as (Hthrow & _).
    apply Hthrow. by vm_compute.
  - assert (vec_size (replicate 32 x00) < 2 ^ 64) as Hu64 by (by vm_compute).
    destruct (adopt_checks_length 16 (replicate 32 x00) eq_refl Hu64)
      as (_ & Hok).
    apply Hok. by vm_compute.
Defined.

(** ** VectorPointTable: what resize and assign restore *)

(** X9. Whatever state the table is in (also after [acquire()] or
    [setNumPoints]), [resize(np)] with a byte count that is a [size_t]
    leaves a table of [np] points: logical size, buffer length and mask
    length agree on [np], and [capacity()] is [np]. *)
Theorem resize_restores_table (tbl : t) (np : N) :
  0 < m_pointSize tbl →
  np * m_pointSize tbl < 2 ^ 64 →
  holds_points np (resize np tbl).2 ∧
  capacity (resize np tbl).2 = np.
Proof.
  intros Hps Hfit.
  assert (holds_points np (resize np tbl).2) as Hholds.
  { rewrite resize_eq. unfold holds_points; simpl.
    by rewrite !vec_size_resize, wrap64_small. }
  split; [done|]. apply capacity_holds_points; [|done].
  by rewrite resize_eq.
Qed.

Lemma resize_restores_table_witness :
  holds_points 3 (resize 3 (run [SetNumPoints 1; Acquire] (make 8 4))).2 ∧
  capacity (resize 3 (run [SetNumPoints 1; Acquire] (make 8 4))).2 = 3.
Proof. apply resize_restores_table; by vm_compute. Defined.

(** X10. [assign] of a buffer of whole records (of at least one byte)
    leaves a table of [length / pointSize] points with the buffer as
    given; it does not start a new skip mask: an index that remains keeps
    the flag it had. *)
Theorem assign_keeps_skip_flags (tbl : t) (data : list byte) :
  0 < m_pointSize tbl →
  vec_size data < 2 ^ 64 →
  vec_size data mod m_pointSize tbl = 0 →
  let tbl' := (assign data tbl).2 in
  m_data tbl' = data ∧
  holds_points (vec_size data / m_pointSize tbl) tbl' ∧
  capacity tbl' = size tbl' ∧
  ∀ x, x < size tbl' → x < vec_size (m_skips tbl) → skip x tbl' = skip x tbl.
Proof.
  intros Hps Hu64 Hmod tbl'. unfold tbl'. rewrite assign_eq. simpl.
  set (n := vec_size data / m_pointSize tbl).
  assert (vec_size data = n * m_pointSize tbl) as Hlen.
  { pose proof (N.div_mod (vec_size data) (m_pointSize tbl)) as Hdm.
    rewrite Hmod in Hdm. fold n in Hdm. lia. }
  assert (holds_points n (Build (m_pointSize tbl) data n
                            (vec_resize n false (m_skips tbl)))) as Hholds.
  { unfold holds_points; simpl. rewrite vec_size_resize.
    split_and!; (done || lia). }
  split_and!; [done | done | by rewrite (capacity_holds_points n) |].
  intros x Hx Hold. unfold skip, vec_at, vec_resize; simpl.
  unfold size in Hx. simpl in Hx. unfold vec_size in Hold.
  rewrite lookup_resize by lia. done.
Qed.

Lemma assign_keeps_skip_flags_witness :
  let tbl' := (assign (replicate 24 x00) scenario_skipped).2 in
  m_data tbl' = replicate 24 x00 ∧
  holds_points (vec_size (replicate 24 x00) / m_pointSize scenario_skipped)
               tbl' ∧
  capacity tbl' = size tbl' ∧
  ∀ x, x < size tbl' → x < vec_size (m_skips scenario_skipped) →
       skip x tbl' = skip x scenario_skipped.
Proof. apply assign_keeps_skip_flags; by vm_compute. Defined.

(** ** VectorPointTable: the skip mask *)

(** X11. [setSkip(n)] is checked against the length of the skip mask (not
    against the logical size): inside the mask it sets flag [n], so that
    [skip(n)] then returns true, and changes no other flag, nor the
    buffer, the logical size or the mask length; past the mask both
    [setSkip(n)] and [skip(n)] throw out-of-range and the table is as it
    was. *)
Theorem setSkip_then_skip (tbl : t) (n : N) :
  (n < vec_size (m_skips tbl) →
   (setSkip n tbl).1 = Ok () ∧
   skip n (setSkip n tbl).2 = Ok true ∧
   (∀ m, m ≠ n → skip m (setSkip n tbl).2 = skip m tbl) ∧
   m_data (setSkip n tbl).2 = m_data tbl ∧
   size (setSkip n tbl).2 = size tbl ∧
   vec_size (m_skips (setSkip n tbl).2) = vec_size (m_skips tbl)) ∧
  (vec_size (m_skips tbl) ≤ n →
   setSkip n tbl = (Throw range_check, tbl) ∧
   skip n tbl = Throw range_check).
Proof.
  rewrite setSkip_eq. split; intros Hn.
  - rewrite decide_True by done. simpl. unfold vec_size in *.
    split_and!; try done.
    + apply vec_at_Ok. simpl. apply list_lookup_insert_eq. lia.
    + intros m Hm. unfold skip, vec_at; simpl.
      rewrite list_lookup_insert_ne by lia. done.
    + by rewrite length_insert.
  - rewrite decide_False by lia. split; [done|].
    unfold skip, vec_at, vec_size in *.
    by rewrite lookup_ge_None_2 by lia.
Qed.

Lemma setSkip_then_skip_witness :
  ((setSkip 3 (run [SetNumPoints 2] (make 8 4))).1 = Ok () ∧
   skip 3 (setSkip 3 (run [SetNumPoints 2] (make 8 4))).2 = Ok true) ∧
  (setSkip 4 (make 8 4) = (Throw range_check, make 8 4) ∧
   skip 4 (make 8 4) = Throw range_check).
Proof.
  split.
  - destruct (setSkip_then_skip (run [SetNumPoints 2] (make 8 4)) 3)
      as (Hin & _).
    destruct Hin as (Hok & Hset & _); [by vm_compute | by split].
  - destruct (setSkip_then_skip (make 8 4) 4) as (_ & Hout).
    apply Hout. by vm_compute.
Defined.

Lemma skip_Ok_lt (tbl : t) (x : N) (b : bool) :
  skip x tbl = Ok b → x < vec_size (m_skips tbl).
Proof.
  intros Hx%vec_at_Ok. apply lookup_lt_Some in Hx. unfold vec_size. lia.
Qed.

Lemma run_op_keeps_flag (o : op) (tbl : t) (x : N) :
  skip x tbl = Ok true →
  x < vec_size (m_skips (run_op o tbl)) →
  skip x (run_op o tbl) = Ok true.
Proof.
  intros Hset Hin. pose proof (skip_Ok_lt _ _ _ Hset) as Hold.
  unfold vec_size in Hold.
  destruct o as [np|d|s|n|]; try done.
  - simpl in *. rewrite vec_size_resize in Hin.
    unfold skip, vec_at, vec_resize in *; simpl.
    rewrite lookup_resize by lia. done.
  - simpl in *. rewrite vec_size_resize in Hin.
    unfold skip, vec_at, vec_resize in *; simpl.
    rewrite lookup_resize by lia. done.
  - simpl. rewrite setSkip_eq. destruct (decide _); [|done].
    apply vec_at_Ok. simpl.
    destruct (decide (n = x)) as [->|Hne].
    + apply list_lookup_insert_eq. lia.
    + rewrite list_lookup_insert_ne by lia. by apply vec_at_Ok.
Qed.

Lemma run_op_mask_length (o : op) (tbl : t) :
  sets_mask o = false →
  vec_size (m_skips (run_op o tbl)) = vec_size (m_skips tbl).
Proof.
  destruct o as [np|d|s|n|]; try done. intros _.
  simpl. rewrite setSkip_eq. destruct (decide _); [|done].
  unfold vec_size; simpl. by rewrite length_insert.
Qed.

(** X12. No operation clears a skip flag: a flag that is set is still set
    after any single resize, assign, setNumPoints, setSkip or acquire,
    unless the operation cut the mask below its index; and it is still
    set after any sequence of setNumPoints, setSkip and acquire. *)
Theorem skip_flag_persists (tbl : t) (x : N) :
  skip x tbl = Ok true →
  (∀ o, x < vec_size (m_skips (run_op o tbl)) →
        skip x (run_op o tbl) = Ok true) ∧
  (∀ ops, Forall (λ o, sets_mask o = false) ops →
          skip x (run ops tbl) = Ok true).
Proof.
  intros Hset. split.
  - intros o. by apply run_op_keeps_flag.
  - intros ops Hops. revert tbl Hset.
    induction Hops as [|o ops Ho _ IH]; intros tbl Hset; [done|].
    change (run (o :: ops) tbl) with (run ops (run_op o tbl)).
    apply IH, run_op_keeps_flag; [done|].
    rewrite run_op_mask_length by done. by eapply skip_Ok_lt.
Qed.

Lemma skip_flag_persists_witness :
  skip 1 (run_op (Resize 2) scenario_skipped) = Ok true ∧
  skip 1 (run [SetNumPoints 1; SetSkip 0; Acquire] scenario_skipped) = Ok true.
Proof.
  assert (skip 1 scenario_skipped = Ok true) as Hset by (by vm_compute).
  destruct (skip_flag_persists scenario_skipped 1 Hset) as (Hop & Hops).
  split.
  - apply Hop. by vm_compute.
  - apply Hops. by repeat constructor.
Defined.

(** ** VectorPointTable: after the buffer is gone *)

(** X13. [acquire()] hands out the whole buffer and leaves the table with
    an empty one, but keeps the logical size and the skip mask: a second
    [acquire()] yields an empty buffer, [capacity()] is 0, and [at(i)]
    still accepts every [i < size] although no byte is left behind the
    handle. *)
Theorem acquire_keeps_logical_size (tbl : t) :
  0 < m_pointSize tbl →
  let tbl' := (acquire tbl).2 in
  (acquire tbl).1 = Ok (m_data tbl) ∧
  (acquire tbl').1 = Ok [] ∧
  capacity tbl' = 0 ∧
  size tbl' = size tbl ∧
  m_skips tbl' = m_skips tbl ∧
  ∀ i, i < size tbl →
       (at_ i tbl').1 = Ok (MkPointRef i) ∧ point_bytes i tbl' = [].
Proof.
  intros Hps tbl'. split_and!; try done.
  intros i Hi. split.
  - rewrite at_eq. change (size tbl') with (size tbl).
    destruct (N.leb_spec (size tbl) i); [lia | done].
  - unfold point_bytes; simpl. by rewrite drop_nil, take_nil.
Qed.

Lemma acquire_keeps_logical_size_witness :
  let tbl' := (acquire (make 8 4)).2 in
  (acquire (make 8 4)).1 = Ok (m_data (make 8 4)) ∧
  (acquire tbl').1 = Ok [] ∧
  capacity tbl' = 0 ∧
  size tbl' = size (make 8 4) ∧
  m_skips tbl' = m_skips (make 8 4) ∧
  ∀ i, i < size (make 8 4) →
       (at_ i tbl').1 = Ok (MkPointRef i) ∧ point_bytes i tbl' = [].
Proof. apply acquire_keeps_logical_size. by vm_compute. Defined.

(** X14. Shrinking a table of [old] points to [new < old] points and
    growing it back to [old] gives a table of [old] points again, but the
    records from [new] on are zero bytes and their skip flags are gone:
    [skip(x)] is false for every [new ≤ x < old]. *)
Theorem resize_down_up_clears (tbl : t) (old new : N) :
  holds_points old tbl →
  new < old →
  let tbl' := (resize old (resize new tbl).2).2 in
  holds_points old tbl' ∧
  m_data tbl'
  = take (N.to_nat (new * m_pointSize tbl)) (m_data tbl)
    ++ vec_fill ((old - new) * m_pointSize tbl) x00 ∧
  m_skips tbl'
  = take (N.to_nat new) (m_skips tbl) ++ vec_fill (old - new) false ∧
  ∀ x, new ≤ x < old → skip x tbl' = Ok false.
Proof.
  intros (Hsize & Hdata & Hskips & Hfit) Hlt tbl'.
  unfold tbl'. rewrite !resize_eq. simpl.
  set (ps := m_pointSize tbl) in *.
  unfold vec_size in Hdata, Hskips.
  assert (new * ps ≤ old * ps) as Hle by nia.
  rewrite !wrap64_small by lia.
  assert (vec_resize (old * ps) x00 (vec_resize (new * ps) x00 (m_data tbl))
          = take (N.to_nat (new * ps)) (m_data tbl)
            ++ vec_fill ((old - new) * ps) x00) as Hd.
  { unfold vec_resize, vec_fill. rewrite (resize_le (m_data tbl)) by lia.
    rewrite resize_ge by (rewrite length_take; lia).
    rewrite length_take. do 2 f_equal. nia. }
  assert (vec_resize old false (vec_resize new false (m_skips tbl))
          = take (N.to_nat new) (m_skips tbl) ++ vec_fill (old - new) false)
    as Hk.
  { unfold vec_resize, vec_fill. rewrite (resize_le (m_skips tbl)) by lia.
    rewrite resize_ge by (rewrite length_take; lia).
    rewrite length_take. do 2 f_equal. lia. }
  split_and!; [ | done | done | ].
  - unfold holds_points; simpl. by rewrite !vec_size_resize.
  - intros x Hx. unfold skip; simpl. rewrite Hk. apply vec_at_Ok.
    rewrite lookup_app_r by (rewrite length_take; lia).
    rewrite length_take. apply lookup_replicate_2. lia.
Qed.

Lemma resize_down_up_clears_witness :
  let tbl' := (resize 4 (resize 1 scenario_skipped).2).2 in
  holds_points 4 tbl' ∧
  m_data tbl'
  = take (N.to_nat (1 * m_pointSize scenario_skipped))
         (m_data scenario_skipped)
    ++ vec_fill ((4 - 1) * m_pointSize scenario_skipped) x00 ∧
  m_skips tbl'
  = take (N.to_nat 1) (m_skips scenario_skipped) ++ vec_fill (4 - 1) false ∧
  ∀ x, 1 ≤ x < 4 → skip x tbl' = Ok false.
Proof. apply resize_down_up_clears; by vm_compute. Defined.

(** ** VectorPointTable: where the records lie *)

(** X15. On a table of [n] points the record of index [i < n] starts at
    byte [i * pointSize], lies whole inside the buffer and has
    [pointSize] bytes, and it ends before the record of any later index
    starts. *)
Theorem record_layout (tbl : t) (n i : N) :
  holds_points n tbl →
  i < n →
  getPoint i tbl = i * m_pointSize tbl ∧
  getPoint i tbl + m_pointSize tbl ≤ vec_size (m_data tbl) ∧
  vec_size (point_bytes i tbl) = m_pointSize tbl ∧
  ∀ j, i < j → j < n → getPoint i tbl + m_pointSize tbl ≤ getPoint j tbl.
Proof.
  intros (Hsize & Hdata & Hskips & Hfit) Hi.
  set (ps := m_pointSize tbl) in *.
  assert (∀ j, j < n → getPoint j tbl = j * ps) as Hget.
  { intros j Hj. unfold getPoint. fold ps. apply wrap64_small. nia. }
  split_and!.
  - by apply Hget.
  - rewrite Hget, Hdata by done. nia.
  - unfold point_bytes, vec_size in *. fold ps.
    rewrite length_take, length_drop, Hget by done. nia.
  - intros j Hij Hj. rewrite !Hget by lia. nia.
Qed.

Lemma record_layout_witness :
  getPoint 1 (make 8 4) = 1 * m_pointSize (make 8 4) ∧
  getPoint 1 (make 8 4) + m_pointSize (make 8 4) ≤ vec_size (m_data (make 8 4)) ∧
  vec_size (point_bytes 1 (make 8 4)) = m_pointSize (make 8 4) ∧
  ∀ j, 1 < j → j < 4 →
       getPoint 1 (make 8 4) + m_pointSize (make 8 4) ≤ getPoint j (make 8 4).
Proof. apply (record_layout (make 8 4) 4 1); by vm_compute. Defined.

(** ** The skip-aware iterator: further *)

(** X16. [operator++()] on an iterator below the logical size moves it,
    without an exception, to the next unskipped index, or to [size] when
    every later index is skipped; its handle is bound to the new index. *)
Theorem advance_to_next_unskipped (tbl : t) (it : Iterator.t) :
  size tbl < 2 ^ 64 →
  size tbl ≤ vec_size (m_skips tbl) →
  Iterator.m_index it < size tbl →
  ∃ j, Iterator.pre_increment tbl it
       = (Ok (), {| Iterator.m_index := j;
                    Iterator.m_pointRef := MkPointRef j |}) ∧
       Iterator.m_index it < j ≤ size tbl ∧
       (∀ x, Iterator.m_index it < x < j → skip x tbl = Ok true) ∧
       (j < size tbl → skip j tbl = Ok false).
Proof. intros Hu64 Hmask Hlt. by apply pre_increment_spec. Qed.

Lemma advance_to_next_unskipped_witness :
  ∃ j, Iterator.pre_increment scenario_skipped
         {| Iterator.m_index := 0; Iterator.m_pointRef := MkPointRef 0 |}
       = (Ok (), {| Iterator.m_index := j;
                    Iterator.m_pointRef := MkPointRef j |}) ∧
       0 < j ≤ size scenario_skipped ∧
       (∀ x, 0 < x < j → skip x scenario_skipped = Ok true) ∧
       (j < size scenario_skipped → skip j scenario_skipped = Ok false).
Proof.
  apply (advance_to_next_unskipped scenario_skipped
           {| Iterator.m_index := 0; Iterator.m_pointRef := MkPointRef 0 |});
    by vm_compute.
Defined.

Lemma skip_while_past_end (tbl : t) (i : N) :
  size tbl ≤ i → Iterator.skip_while tbl i = (Ok (), i).
Proof.
  intros Hi. unfold Iterator.skip_while.
  by replace (N.to_nat (size tbl - i)) with 0%nat by lia.
Qed.

(** X17. An iterator made at or past the logical size rests where it was
    put and never consults the skip mask, so [end()] always succeeds; and
    [operator++()] on [end()] does not stay there: it moves to [size + 1]
    and compares unequal to [end()]. *)
Theorem iterator_past_end (tbl : t) (i : N) :
  size tbl ≤ i →
  Iterator.make tbl i
  = Ok {| Iterator.m_index := i; Iterator.m_pointRef := MkPointRef i |} ∧
  end_ tbl = Ok {| Iterator.m_index := size tbl;
                   Iterator.m_pointRef := MkPointRef (size tbl) |} ∧
  (size tbl + 1 < 2 ^ 64 →
   ∀ last, end_ tbl = Ok last →
     ∃ it', Iterator.pre_increment tbl last = (Ok (), it') ∧
            Iterator.m_index it' = size tbl + 1 ∧
            Iterator.neq it' last = true).
Proof.
  intros Hi.
  assert (∀ j, size tbl ≤ j →
               Iterator.make tbl j
               = Ok {| Iterator.m_index := j;
                       Iterator.m_pointRef := MkPointRef j |}) as Hmake.
  { intros j Hj. unfold Iterator.make. by rewrite skip_while_past_end. }
  split_and!; [by apply Hmake | by apply Hmake |].
  intros Hnext last Hlast. unfold end_ in Hlast.
  rewrite Hmake in Hlast by done. injection Hlast as <-.
  unfold Iterator.pre_increment; simpl.
  rewrite wrap64_small by done.
  rewrite skip_while_past_end by lia.
  eexists. split_and!; [done | done |].
  unfold Iterator.neq; simpl. apply negb_true_iff, N.eqb_neq. lia.
Qed.

Lemma iterator_past_end_witness :
  Iterator.make (make 8 4) 7
  = Ok {| Iterator.m_index := 7; Iterator.m_pointRef := MkPointRef 7 |} ∧
  ∃ it', Iterator.pre_increment (make 8 4)
           {| Iterator.m_index := 4; Iterator.m_pointRef := MkPointRef 4 |}
         = (Ok (), it') ∧
         Iterator.m_index it' = size (make 8 4) + 1 ∧
         Iterator.neq it'
           {| Iterator.m_index := 4; Iterator.m_pointRef := MkPointRef 4 |}
         = true.
Proof.
  split.
  - destruct (iterator_past_end (make 8 4) 7) as (Hmake & _);
      [by vm_compute | done].
  - destruct (iterator_past_end (make 8 4) 7) as (_ & _ & Hadvance);
      [by vm_compute |].
    apply Hadvance; by vm_compute.
Defined.

Section short_mask.
Variable tbl : t.
Hypothesis size_u64 : size tbl < 2 ^ 64.
Hypothesis mask_short : vec_size (m_skips tbl) < size tbl.

(** With a mask shorter than the logical size the loop either stops on an
    unskipped index inside the mask or throws at the end of the mask. *)
Lemma skip_loop_short (fuel : nat) (i : N) :
  i ≤ vec_size (m_skips tbl) →
  (N.to_nat (size tbl - i) ≤ fuel)%nat →
  (∃ j, Iterator.skip_loop fuel tbl i = (Throw range_check, j)) ∨
  (∃ j, Iterator.skip_loop fuel tbl i = (Ok (), j) ∧
        i ≤ j < vec_size (m_skips tbl)).
Proof.
  revert i. induction fuel as [|fuel IH]; intros i Hi Hfuel; [lia|].
  simpl. destruct (N.ltb_spec i (size tbl)) as [Hlt|]; [|lia].
  destruct (decide (i = vec_size (m_skips tbl))) as [->|Hne].
  - left. exists (vec_size (m_skips tbl)).
    unfold skip, vec_at, vec_size.
    by rewrite Nat2N.id, lookup_ge_None_2 by lia.
  - destruct (vec_at_in_range (m_skips tbl) i) as [[|] Hb]; [lia | |];
      unfold skip; rewrite Hb.
    + rewrite wrap64_small by lia.
      destruct (IH (i + 1)) as [Hthrow | (j & Hrun & Hj)]; [lia | lia | |].
      * by left.
      * right. exists j. split; [done | lia].
    + right. exists i. split; [done | lia].
Qed.

Lemma for_loop_short (fuel : nat) (it last : Iterator.t) :
  Iterator.m_index last = size tbl →
  Iterator.m_index it < vec_size (m_skips tbl) →
  (N.to_nat (size tbl - Iterator.m_index it) ≤ fuel)%nat →
  for_loop fuel tbl it last = Throw range_check.
Proof.
  intros Hlast. revert it.
  induction fuel as [|fuel IH]; intros it Hit Hfuel; [lia|].
  simpl. unfold Iterator.neq. rewrite Hlast.
  destruct (N.eqb_spec (Iterator.m_index it) (size tbl)); [lia|]. simpl.
  unfold Iterator.pre_increment, Iterator.skip_while.
  rewrite wrap64_small by lia.
  destruct (skip_loop_short
              (N.to_nat (size tbl - (Iterator.m_index it + 1)))
              (Iterator.m_index it + 1))
    as [(j & ->) | (j & -> & Hj)]; [lia | lia | done |].
  rewrite IH; [done | simpl; lia | simpl; lia].
Qed.

Lemma iterate_short : iterate tbl = Throw range_check.
Proof.
  unfold iterate, begin, end_, Iterator.make.
  rewrite (skip_while_past_end tbl (size tbl)) by lia.
  unfold Iterator.skip_while.
  destruct (skip_loop_short (N.to_nat (size tbl - 0)) 0)
    as [(j & ->) | (j & -> & Hj)]; [lia | lia | done |].
  apply for_loop_short; simpl; lia.
Qed.
End short_mask.

(** X18. A traversal from [begin()] to [end()] ends normally exactly when
    the skip mask covers the logical size; when the mask is shorter (the
    logical size was raised past it by [setNumPoints]) the traversal
    throws the out-of-range exception of the mask lookup. *)
Theorem iterate_needs_mask (tbl : t) :
  size tbl < 2 ^ 64 →
  ((∃ l, iterate tbl = Ok l) ↔ size tbl ≤ vec_size (m_skips tbl)) ∧
  (vec_size (m_skips tbl) < size tbl → iterate tbl = Throw range_check).
Proof.
  intros Hu64. split; [split|].
  - intros [l Hl].
    destruct (N.le_gt_cases (size tbl) (vec_size (m_skips tbl)))
      as [|Hshort]; [done|].
    by rewrite iterate_short in Hl.
  - intros Hmask.
    destruct (iterate_spec tbl Hu64 Hmask) as (l & Hl & _). eauto.
  - by apply iterate_short.
Qed.

Lemma iterate_needs_mask_witness :
  iterate (run [SetNumPoints 6] (make 8 4)) = Throw range_check ∧
  ∃ l, iterate (run [SetNumPoints 3] (make 8 4)) = Ok l.
Proof.
  split.
  - assert (size (run [SetNumPoints 6] (make 8 4)) < 2 ^ 64) as Hu64
      by (by vm_compute).
    destruct (iterate_needs_mask _ Hu64) as (_ & Hthrow).
    apply Hthrow. by vm_compute.
  - assert (size (run [SetNumPoints 3] (make 8 4)) < 2 ^ 64) as Hu64
      by (by vm_compute).
    destruct (iterate_needs_mask _ Hu64) as (Hiff & _).
    apply Hiff. by vm_compute.
Defined.
